(** * naturebindgen: the macro-to-named-initializer engine (src/constants.cpp)

    A shallow embedding of the type resolver, the override registry, the
    literal serializer and the evaluation entry point of [constants.cpp],
    together with the properties its specification states about them.

    The engine is a client of clang.  The parts of clang it consumes are
    modelled at their API boundary:
    - the type tree ([QualType]) with its canonicalisation and the
      classification predicates the engine calls;
    - the expression tree ([Expr]) with the statement classes the engine
      distinguishes;
    - oracles for what clang computes from data the engine never sees
      (type spelling, USR generation, source text extraction, parsing).

    The [DEBUG_LOG] writes to [stderr] are not part of the model, and
    strings are values: a C string is never null and [malloc] succeeds. *)

From Stdlib Require Import ZArith Ascii String List Lia DecimalString.
From Stdlib Require DecimalZ DecimalPos.
From stdpp Require Import base option list strings gmap.

Local Open Scope string_scope.
Set Warnings "-register-all".

(** ** The C++ undefined-behaviour monad

    A computation either yields a value or runs into undefined behaviour
    (an out-of-range [getInit], an out-of-range array read, a null
    dereference).  [Fault] is [None]; sequencing is stdpp's option bind. *)

Definition M (A : Type) : Type := option A.
Definition ret {A} (a : A) : M A := Some a.
Definition Fault {A} : M A := None.

(** ** clang types *)

Module Clang.

(** [BuiltinType::Kind], restricted to the kinds C produces.  [Char_U] and
    [Char_S] are the two flavours of plain [char] (unsigned or signed on the
    target); [UChar] and [SChar] are the explicitly qualified
    [unsigned char] and [signed char]. *)
Inductive BuiltinKind :=
  | Void
  | Bool | Char_U | UChar | UShort | UInt | ULong | ULongLong | UInt128
  | Char_S | SChar | Short | Int | Long | LongLong | Int128
  | Half | Float | Double | LongDouble | Float16 | Float128.

Global Instance BuiltinKind_eq_dec : EqDecision BuiltinKind.
Proof. solve_decision. Defined.

(** The fast qualifiers carried by a [QualType]. *)
Record Qualifiers := { q_const : bool; q_volatile : bool; q_restrict : bool }.

Definition noQuals : Qualifiers :=
  {| q_const := false; q_volatile := false; q_restrict := false |}.

Definition addQuals (a b : Qualifiers) : Qualifiers :=
  {| q_const := q_const a || q_const b;
     q_volatile := q_volatile a || q_volatile b;
     q_restrict := q_restrict a || q_restrict b |}.

Record EnumDecl := { enum_name : string; enum_complete : bool; enum_scoped : bool }.

(** A [QualType] is a type node plus local qualifiers.  [Typedef] is the
    only sugar node: every other node is structural. *)
Inductive QualType :=
  | QT (quals : Qualifiers) (ty : TypeNode)
with TypeNode :=
  | Builtin (k : BuiltinKind)
  | Complex (elem : QualType)
  | Pointer (pointee : QualType)
  | ConstantArray (elem : QualType) (size : N)
  | FunctionProto (result : QualType) (params : list QualType)
  | Enum (ed : EnumDecl)
  | Record_ (rd : RecordDecl)
  | Typedef (name : string) (underlying : QualType)
with RecordDecl :=
  | mkRecordDecl (name : string) (fields : list FieldDecl)
with FieldDecl :=
  | mkFieldDecl (name : string) (ty : QualType).

Definition getTypePtr (qt : QualType) : TypeNode :=
  match qt with QT _ t => t end.

Definition withQuals (q : Qualifiers) (qt : QualType) : QualType :=
  match qt with QT q' t => QT (addQuals q q') t end.

Definition fields (rd : RecordDecl) : list FieldDecl :=
  match rd with mkRecordDecl _ fs => fs end.

Definition getNameAsString (rd : RecordDecl) : string :=
  match rd with mkRecordDecl n _ => n end.

Definition getName (fd : FieldDecl) : string :=
  match fd with mkFieldDecl n _ => n end.

(** [QualType::getCanonicalType]: the canonical type of the node with the
    local qualifiers added.  Canonical types contain no sugar at any level;
    a record or enum type is its own canonical type. *)
Fixpoint getCanonicalType (qt : QualType) : QualType :=
  match qt with
  | QT q t => withQuals q (canonicalTypeInternal t)
  end
with canonicalTypeInternal (t : TypeNode) : QualType :=
  match t with
  | Builtin k => QT noQuals (Builtin k)
  | Complex e => QT noQuals (Complex (getCanonicalType e))
  | Pointer p => QT noQuals (Pointer (getCanonicalType p))
  | ConstantArray e n => QT noQuals (ConstantArray (getCanonicalType e) n)
  | FunctionProto r ps =>
      QT noQuals (FunctionProto (getCanonicalType r) (map getCanonicalType ps))
  | Enum ed => QT noQuals (Enum ed)
  | Record_ rd => QT noQuals (Record_ rd)
  | Typedef _ u => getCanonicalType u
  end.

(** [Type::getAs<BuiltinType>()->getKind()]: looks through sugar. *)
Definition getAsBuiltin (qt : QualType) : option BuiltinKind :=
  match getTypePtr (getCanonicalType qt) with
  | Builtin k => Some k
  | _ => None
  end.

(** [Type::isSpecificBuiltinType(K)]. *)
Definition isSpecificBuiltinType (qt : QualType) (K : BuiltinKind) : bool :=
  match getAsBuiltin qt with
  | Some k => bool_decide (k = K)
  | None => false
  end.

(** The kinds between [Bool] and [Int128] in [BuiltinTypes.def]. *)
Definition isIntegerKind (k : BuiltinKind) : bool :=
  match k with
  | Bool | Char_U | UChar | UShort | UInt | ULong | ULongLong | UInt128
  | Char_S | SChar | Short | Int | Long | LongLong | Int128 => true
  | _ => false
  end.

(** The kinds between [Half] and [Float128]. *)
Definition isFloatingKind (k : BuiltinKind) : bool :=
  match k with
  | Half | Float | Double | LongDouble | Float16 | Float128 => true
  | _ => false
  end.

(** [Type::isIntegerType]: a builtin integer kind, or a complete unscoped
    enum. *)
Definition isIntegerType (qt : QualType) : bool :=
  match getTypePtr (getCanonicalType qt) with
  | Builtin k => isIntegerKind k
  | Enum ed => enum_complete ed && negb (enum_scoped ed)
  | _ => false
  end.

(** [Type::isFloatingType]: a builtin floating kind, or a complex type over
    one. *)
Definition isFloatingType (qt : QualType) : bool :=
  match getTypePtr (getCanonicalType qt) with
  | Builtin k => isFloatingKind k
  | Complex e =>
      match getTypePtr (getCanonicalType e) with
      | Builtin k => isFloatingKind k
      | _ => false
      end
  | _ => false
  end.

(** [Type::isPointerType]. *)
Definition isPointerType (qt : QualType) : bool :=
  match getTypePtr (getCanonicalType qt) with
  | Pointer _ => true
  | _ => false
  end.

(** [Type::getPointeeType]; applied by the engine to pointer types only, a
    null [QualType] otherwise, which the engine never dereferences. *)
Definition getPointeeType (qt : QualType) : option QualType :=
  match getTypePtr (getCanonicalType qt) with
  | Pointer p => Some p
  | _ => None
  end.

(** [Type::getAs<RecordType>()->getDecl()]: looks through sugar. *)
Definition getAsRecordDecl (qt : QualType) : option RecordDecl :=
  match getTypePtr (getCanonicalType qt) with
  | Record_ rd => Some rd
  | _ => None
  end.

End Clang.
Export Clang.

(** ** clang expressions *)

(** A [SourceLocation] is clang's opaque 32-bit encoding; the engine only
    hands locations back to the lexer. *)
Definition SourceLocation : Type := N.

Record SourceRange := { getBegin : SourceLocation; getEnd : SourceLocation }.

(** [llvm::APInt]: a bit width and the unsigned value of the bits. *)
Record APInt := { BitWidth : N; U : Z }.

(** [APInt::getSExtValue]: the low [min 64 BitWidth] bits read as a signed
    number (single-word values are sign-extended from [BitWidth]; wider
    values keep their low word). *)
Definition getSExtValue (v : APInt) : Z :=
  let w := Z.min 64 (Z.of_N (BitWidth v)) in
  let u := (U v mod 2 ^ w)%Z in
  if (u <? 2 ^ (w - 1))%Z then u else (u - 2 ^ w)%Z.

(** [std::to_string(long long)]. *)
Definition to_string (z : Z) : string := NilZero.string_of_int (Z.to_int z).

(** [llvm::APFloat], kept as the text [APFloat::toString] renders. *)
Record APFloat := { toString : string }.

(** The statement classes the engine tells apart.  [OtherExpr] stands for
    every remaining class (DeclRefExpr, ParenExpr, UnaryOperator,
    BinaryOperator, CStyleCastExpr, ...): the engine only reads their
    source range. *)
Inductive Expr :=
  | IntegerLiteral (range : SourceRange) (value : APInt)
  | FloatingLiteral (range : SourceRange) (value : APFloat)
  | StringLiteral (range : SourceRange) (bytes : string)
  | CompoundLiteralExpr (range : SourceRange) (ty : QualType) (init : Expr)
  | InitListExpr (range : SourceRange) (inits : list Expr)
  | ImplicitCastExpr (range : SourceRange) (sub : Expr)
  | OtherExpr (range : SourceRange).

Definition getSourceRange (e : Expr) : SourceRange :=
  match e with
  | IntegerLiteral r _ | FloatingLiteral r _ | StringLiteral r _
  | CompoundLiteralExpr r _ _ | InitListExpr r _ | ImplicitCastExpr r _
  | OtherExpr r => r
  end.

Definition getBeginLoc (e : Expr) : SourceLocation := getBegin (getSourceRange e).
Definition getEndLoc (e : Expr) : SourceLocation := getEnd (getSourceRange e).

(** [Expr::IgnoreImpCasts]. *)
Fixpoint IgnoreImpCasts (e : Expr) : Expr :=
  match e with
  | ImplicitCastExpr _ sub => IgnoreImpCasts sub
  | _ => e
  end.

(** The number of nodes of an expression. *)
Fixpoint exprSize (e : Expr) : nat :=
  match e with
  | CompoundLiteralExpr _ _ init => S (exprSize init)
  | InitListExpr _ inits => S (sum_list (map exprSize inits))
  | ImplicitCastExpr _ sub => S (exprSize sub)
  | _ => 1
  end.

(** [dyn_cast<CompoundLiteralExpr>]. *)
Definition isCompoundLiteral (e : Expr) : bool :=
  match e with CompoundLiteralExpr _ _ _ => true | _ => false end.

(** The expressions [exprToString] sends to its fallback: neither an
    integer, floating or string literal nor a compound literal. *)
Definition isOtherKind (e : Expr) : bool :=
  match e with
  | IntegerLiteral _ _ | FloatingLiteral _ _ | StringLiteral _ _
  | CompoundLiteralExpr _ _ _ => false
  | _ => true
  end.

(** [ASTContext], as far as the engine uses it: the two clang services
    that need it.
    - [generateUSRForType] is [clang::index::generateUSRForType]; [None]
      when clang reports that no USR could be generated.
    - [getSourceText b e] is [Lexer::getSourceText] on the token range from
      [b] to [e]; [None] when the lexer flags the range as invalid, in
      which case the [StringRef] it returns is empty. *)
Record ASTContext := {
  generateUSRForType : QualType → option string;
  getSourceText : SourceLocation → SourceLocation → option string
}.

(** The override registry: [static std::unordered_map<std::string,
    std::string> customTypeNames], threaded explicitly. *)
Abbreviation Registry := (gmap string string).

Definition dquote : string := String "034"%char EmptyString.

(** ** The engine *)

Section Engine.

(** [QualType::getAsString], clang's type printer. *)
Variable getAsString : QualType → string.

Definition getUSRForType (T : QualType) (Ctx : ASTContext) : string :=
  match generateUSRForType Ctx T with
  | Some usr => usr
  | None => ""
  end.

(** [normalizeTypeName]: the early returns of the integer, floating and
    pointer blocks, in order, as one chain; a block whose inner tests all
    fail falls through to the next.  [getPointeeType] of a pointer type is
    never null. *)
Definition normalizeTypeName (qt : QualType) : string :=
  let canonical := getCanonicalType qt in
  if isIntegerType canonical && isSpecificBuiltinType canonical Int then "i32"
  else if isIntegerType canonical && isSpecificBuiltinType canonical Short then "i16"
  else if isIntegerType canonical && isSpecificBuiltinType canonical LongLong then "i64"
  else if isIntegerType canonical &&
          (isSpecificBuiltinType canonical Char_U || isSpecificBuiltinType canonical Char_S)
       then "u8"
  else if isFloatingType canonical && isSpecificBuiltinType canonical Float then "f32"
  else if isFloatingType canonical && isSpecificBuiltinType canonical Double then "f64"
  else if isPointerType canonical then
    match getPointeeType canonical with
    | Some p =>
        let pointee := getCanonicalType p in
        if isSpecificBuiltinType pointee Char_S || isSpecificBuiltinType pointee Char_U
        then "str"
        else "anyptr"
    | None => "anyptr"
    end
  else getAsString qt.

Definition resolveTypeName (qt : QualType) (ctx : ASTContext)
    (customTypeNames : Registry) : string :=
  let usr := getUSRForType qt ctx in
  match customTypeNames !! usr with
  | Some name => name
  | None => normalizeTypeName qt
  end.

(** The fallback of [exprToString]: the text of the token range between
    the expression's begin and end locations. *)
Definition sourceTextOf (e : Expr) (ctx : ASTContext) : string :=
  match getSourceText ctx (getBeginLoc e) (getEndLoc e) with
  | Some text => text
  | None => ""
  end.

(** [exprToString] and [compoundLiteralToNamedInit].  A
    [const CompoundLiteralExpr*] is passed as its type and its initializer.

    The field loop walks [rd->fields()] with the counter [i]; [rest] is
    the initializer list from index [i] on, so its head is
    [ile->getInit(i)], and an empty [rest] is a read past the end of the
    list.  [i] is bounded by [getNumInits()], an [unsigned], and never
    wraps. *)
Fixpoint exprToString (e : Expr) (ctx : ASTContext) (customTypeNames : Registry)
    {struct e} : M string :=
  match e with
  | IntegerLiteral _ v => ret (to_string (getSExtValue v))
  | FloatingLiteral _ v => ret (toString v)
  | StringLiteral _ s => ret (dquote +:+ s +:+ dquote +:+ ".ref()")
  | CompoundLiteralExpr _ qt init =>
      compoundLiteralToNamedInit qt init ctx customTypeNames
  | _ => ret (sourceTextOf e ctx)
  end
with compoundLiteralToNamedInit (qt : QualType) (init : Expr) (ctx : ASTContext)
    (customTypeNames : Registry) {struct init} : M string :=
  match getAsRecordDecl qt with
  | None => ret "<not a record>"
  | Some rd =>
      match init with
      | InitListExpr _ inits =>
          let type_name := resolveTypeName qt ctx customTypeNames in
          out ← (fix loop (rest : list Expr) (fs : list FieldDecl) (i : N)
                     (out : string) {struct rest} : M string :=
                   match fs with
                   | [] => ret out
                   | field :: fs' =>
                       let out := if (0 <? i)%N then out +:+ ", " else out in
                       let out := out +:+ getName field +:+ "=" in
                       match rest with
                       | [] => Fault
                       | x :: rest' =>
                           let initExpr := IgnoreImpCasts x in
                           s ← match initExpr with
                               | CompoundLiteralExpr _ qt' init' =>
                                   compoundLiteralToNamedInit qt' init' ctx customTypeNames
                               | _ => exprToString initExpr ctx customTypeNames
                               end;
                           loop rest' fs' (i + 1)%N (out +:+ s)
                       end
                   end) inits (fields rd) 0%N (type_name +:+ "{");
          ret (out +:+ "}")
      | _ => ret "<not an init list>"
      end
  end.

(** [set_custom_type_names]: [clear()], then [customTypeNames[usrs[i]] =
    names[i]] for [i] from [0] while [i < count].  Reading [usrs] or [names]
    past their end is undefined behaviour. *)
Definition set_custom_type_names (usrs names : list string) (count : Z)
    (customTypeNames : Registry) : M Registry :=
  foldl (fun (acc : M Registry) (i : nat) =>
           m ← acc;
           usr ← usrs !! i;
           name ← names !! i;
           ret (<[usr := name]> m))
        (ret ∅) (seq 0 (Z.to_nat count)).

(** The top-level declarations the entry point tells apart: a [VarDecl] with
    its name and (possibly absent) initializer, or anything else. *)
Inductive Decl :=
  | VarDecl (name : string) (init : option Expr)
  | OtherDecl.

(** [ASTUnit]: the context and [getTranslationUnitDecl()->decls()]. *)
Record ASTUnit := { getASTContext : ASTContext; decls : list Decl }.

(** [clang::tooling::buildASTFromCodeWithArgs]; [None] is a null unit. *)
Variable buildASTFromCodeWithArgs : string → list string → string → option ASTUnit.

(** [header_path[0] == '<' && header_path[length - 1] == '>']; the second
    read happens only when the first test holds, hence on a non-empty
    string. *)
Definition isAngleInclude (header_path : string) : bool :=
  match String.get 0 header_path with
  | Some c =>
      Ascii.eqb c "<" &&
      match String.get (String.length header_path - 1) header_path with
      | Some d => Ascii.eqb d ">"
      | None => false
      end
  | None => false
  end.

(** [std::string::find_last_of]: the largest index holding one of [chars]. *)
Fixpoint find_last_of_from (i : nat) (s chars : string) (found : option nat)
    : option nat :=
  match s with
  | EmptyString => found
  | String c s' =>
      find_last_of_from (S i) s' chars
        (if existsb (Ascii.eqb c) (list_ascii_of_string chars) then Some i else found)
  end.

Definition find_last_of (s chars : string) : option nat :=
  find_last_of_from 0 s chars None.

(** The synthetic translation unit. *)
Definition syntheticCode (header_path define_name : string) : string :=
  ("#include " +:+ dquote +:+ header_path +:+ dquote +:+ String "010" "") +:+
  ("const auto __dummy_var = " +:+ define_name +:+ ";" +:+ String "010" "").

(** The compiler arguments: the fixed prefix, the include path of the
    header's directory when the path has one, then the caller's. *)
Definition driverArgs (header_path : string) (clang_args : list string)
    (num_args : Z) : M (list string) :=
  let args := ["-x"; "c"; "-std=c11"] in
  let args :=
    match find_last_of header_path "/\" with
    | Some last_slash =>
        (args ++ ["-I" +:+ String.substring 0 last_slash header_path])%list
    | None => args
    end in
  foldl (fun (acc : M (list string)) (i : nat) =>
           args ← acc;
           a ← clang_args !! i;
           ret (args ++ [a])%list)
        (ret args) (seq 0 (Z.to_nat num_args)).

(** What [strcpy(cstr, result.c_str())] leaves in the buffer: the bytes of
    the string before its first NUL. *)
Fixpoint c_str (s : string) : string :=
  match s with
  | EmptyString => EmptyString
  | String c s' => if Ascii.eqb c "000" then EmptyString else String c (c_str s')
  end.

(** The scan of [tu->decls()].  [vd->getInit()] is null for a variable
    without initializer, and is dereferenced unchecked.  The result is
    [None] for [nullptr] and [Some] for the allocated C string, the copy of
    the assembled text up to its first NUL. *)
Fixpoint findDummyVar (ds : list Decl) (define_name : string) (ctx : ASTContext)
    (customTypeNames : Registry) : M (option string) :=
  match ds with
  | [] => ret None
  | d :: ds' =>
      match d with
      | VarDecl name vinit =>
          if String.eqb name "__dummy_var" then
            init ← vinit;
            match IgnoreImpCasts init with
            | CompoundLiteralExpr _ qt cinit =>
                let type_name := resolveTypeName qt ctx customTypeNames in
                init_str ← compoundLiteralToNamedInit qt cinit ctx customTypeNames;
                let result :=
                  type_name +:+ " " +:+ define_name +:+ " = " +:+ init_str +:+ ";" in
                ret (Some (c_str result))
            | _ => findDummyVar ds' define_name ctx customTypeNames
            end
          else findDummyVar ds' define_name ctx customTypeNames
      | OtherDecl => findDummyVar ds' define_name ctx customTypeNames
      end
  end.

Definition macro_to_named_initializer (header_path define_name : string)
    (clang_args : list string) (num_args : Z) (customTypeNames : Registry)
    : M (option string) :=
  if isAngleInclude header_path then ret None
  else
    let code := syntheticCode header_path define_name in
    args ← driverArgs header_path clang_args num_args;
    match buildASTFromCodeWithArgs code args "macro_eval.c" with
    | None => ret None
    | Some ast =>
        findDummyVar (decls ast) define_name (getASTContext ast) customTypeNames
    end.

End Engine.

(** ** The field loop, named

    The body of the loop of [compoundLiteralToNamedInit] and the loop itself,
    as separate functions, for reasoning. *)

(** [dyn_cast<InitListExpr>]. *)
Definition isInitListExpr (e : Expr) : bool :=
  match e with InitListExpr _ _ => true | _ => false end.

(** The text of one initializer: implicit casts stripped, a nested compound
    literal goes back to [compoundLiteralToNamedInit], anything else to
    [exprToString]. *)
Definition fieldValue (getAsString : QualType → string) (ctx : ASTContext)
    (customTypeNames : Registry) (x : Expr) : M string :=
  let initExpr := IgnoreImpCasts x in
  match initExpr with
  | CompoundLiteralExpr _ qt' init' =>
      compoundLiteralToNamedInit getAsString qt' init' ctx customTypeNames
  | _ => exprToString getAsString initExpr ctx customTypeNames
  end.

Section FieldLoop.

Variable val : Expr → M string.

Fixpoint fieldLoop (rest : list Expr) (fs : list FieldDecl) (i : N) (out : string)
    {struct rest} : M string :=
  match fs with
  | [] => ret out
  | field :: fs' =>
      let out := if (0 <? i)%N then out +:+ ", " else out in
      let out := out +:+ getName field +:+ "=" in
      match rest with
      | [] => Fault
      | x :: rest' =>
          s ← val x;
          fieldLoop rest' fs' (i + 1)%N (out +:+ s)
      end
  end.

End FieldLoop.

(** ** Specification-level definitions *)

(** The primitive mapping table in the specification's words:
    [int]→[i32], [short]→[i16], [long long]→[i64], [unsigned char] and
    [char]→[u8], [float]→[f32], [double]→[f64].  Plain [char] is [Char_S] or
    [Char_U], depending on the target. *)
Definition specPrimitiveName (k : BuiltinKind) : option string :=
  match k with
  | Int => Some "i32"
  | Short => Some "i16"
  | LongLong => Some "i64"
  | UChar | Char_U | Char_S => Some "u8"
  | Float => Some "f32"
  | Double => Some "f64"
  | _ => None
  end.

(** A character type of the signed or the unsigned flavour. *)
Definition isCharFlavour (qt : QualType) : bool :=
  match getAsBuiltin qt with
  | Some Char_S | Some Char_U => true
  | _ => false
  end.

(** The default cases of the specification: a builtin of the table, or a
    pointer, told apart by its canonicalised pointee. *)
Definition specDefaultName (qt : QualType) : option string :=
  match getTypePtr (getCanonicalType qt) with
  | Builtin k => specPrimitiveName k
  | Pointer p => Some (if isCharFlavour p then "str" else "anyptr")
  | _ => None
  end.

(** The bulk-set contract of the specification, [setAll(entries)], on the
    C entry point: [keys[i]] pairs with [names[i]], [count] is the number of
    entries. *)
Definition setAll (entries : list (string * string)) (customTypeNames : Registry)
    : M Registry :=
  set_custom_type_names entries.*1 entries.*2 (Z.of_nat (length entries))
    customTypeNames.

(** Sequential insertion, the later entry overwriting the earlier. *)
Definition insertAll (entries : list (string * string)) (m : Registry) : Registry :=
  foldl (fun m e => <[e.1 := e.2]> m) m entries.

(** Walks over the declared fields paired positionally with the
    initializers, as the field loop does. *)
Section Paired.

Variable depth : Expr → nat.
Variable holds : FieldDecl → Expr → bool.
Variable short : bool.

(** The largest [depth] among the initializers paired with a field. *)
Fixpoint pairedMax (rest : list Expr) (fs : list FieldDecl) {struct rest} : nat :=
  match fs, rest with
  | _ :: fs', x :: rest' => depth x `max` pairedMax rest' fs'
  | _, _ => 0
  end.

(** [holds] on every field and its initializer; [short] when a field has
    no initializer left. *)
Fixpoint pairedAll (rest : list Expr) (fs : list FieldDecl) {struct rest} : bool :=
  match fs, rest with
  | [], _ => true
  | _ :: _, [] => short
  | f :: fs', x :: rest' => holds f x && pairedAll rest' fs'
  end.

End Paired.

(** *** Nested named initializers

    The specification's description of the output of
    [compoundLiteralToNamedInit]: [Name{f0=v0, f1=v1, ...}], one
    [fieldName=value] member per declared field, joined with [, ]. *)

Definition memberText (f : FieldDecl) (v : string) : string :=
  getName f +:+ "=" +:+ v.

Definition namedInitText (name : string) (fs : list FieldDecl) (vals : list string)
    : string :=
  name +:+ "{" +:+ String.concat ", " (zip_with memberText fs vals) +:+ "}".

(** The nesting depth of a compound literal, as the specification counts
    it: one for the literal itself, plus the deepest compound literal among
    the values of its record fields, whatever the type of that literal. *)
Fixpoint valueLiteralDepth (e : Expr) : nat :=
  match e with
  | CompoundLiteralExpr _ qt init => literalDepth qt init
  | _ => 0
  end
with literalDepth (qt : QualType) (init : Expr) : nat :=
  S (match getAsRecordDecl qt with
     | None => 0
     | Some rd =>
         match init with
         | InitListExpr _ inits =>
             pairedMax (fun x => valueLiteralDepth (IgnoreImpCasts x)) inits (fields rd)
         | _ => 0
         end
     end).

(** Every compound literal reached through the field values, the
    outermost included, has a record type and a list initializer. *)
Fixpoint valueRecordsOnly (e : Expr) : bool :=
  match e with
  | CompoundLiteralExpr _ qt init => recordLiteralsOnly qt init
  | _ => true
  end
with recordLiteralsOnly (qt : QualType) (init : Expr) : bool :=
  match getAsRecordDecl qt with
  | None => false
  | Some rd =>
      match init with
      | InitListExpr _ inits =>
          pairedAll (fun _ x => valueRecordsOnly (IgnoreImpCasts x)) true
            inits (fields rd)
      | _ => false
      end
  end.

(** The number of nested [Name{...}] groups the serializer emits for a
    literal: the levels that pass its two guards (record type, list
    initializer) count, a literal that fails one yields a marker and no
    group. *)
Fixpoint valueDepth (e : Expr) : nat :=
  match e with
  | CompoundLiteralExpr _ qt init => nestingDepth qt init
  | _ => 0
  end
with nestingDepth (qt : QualType) (init : Expr) : nat :=
  match getAsRecordDecl qt with
  | None => 0
  | Some rd =>
      match init with
      | InitListExpr _ inits =>
          S (pairedMax (fun x => valueDepth (IgnoreImpCasts x)) inits (fields rd))
      | _ => 0
      end
  end.

(** Every record literal, at every level, has an initializer for each of
    its declared fields. *)
Fixpoint valueComplete (e : Expr) : bool :=
  match e with
  | CompoundLiteralExpr _ qt init => enoughInitializers qt init
  | _ => true
  end
with enoughInitializers (qt : QualType) (init : Expr) : bool :=
  match getAsRecordDecl qt with
  | None => true
  | Some rd =>
      match init with
      | InitListExpr _ inits =>
          pairedAll (fun _ x => valueComplete (IgnoreImpCasts x)) false
            inits (fields rd)
      | _ => true
      end
  end.

(** Counting groups in a text: [braceScan] walks the text with the current
    and the deepest brace level and fails on a closing brace without an
    opening one; [groupDepth] is the deepest level of a balanced text. *)
Definition isBrace (c : ascii) : bool := Ascii.eqb c "{" || Ascii.eqb c "}".

Fixpoint braceFree (s : string) : bool :=
  match s with
  | EmptyString => true
  | String c s' => negb (isBrace c) && braceFree s'
  end.

Fixpoint braceScan (s : string) (cur deepest : nat) : option (nat * nat) :=
  match s with
  | EmptyString => Some (cur, deepest)
  | String c s' =>
      if Ascii.eqb c "{" then braceScan s' (S cur) (deepest `max` S cur)
      else if Ascii.eqb c "}" then
        match cur with
        | O => None
        | S cur' => braceScan s' cur' deepest
        end
      else braceScan s' cur deepest
  end.

Definition groupDepth (s : string) : option nat :=
  match braceScan s 0 0 with
  | Some (O, deepest) => Some deepest
  | _ => None
  end.

(** The names and the leaf texts of a literal, at every level, contain no
    brace: the resolved type names, the field names, and the texts of the
    values that are not compound literals. *)
Fixpoint valuePlain (getAsString : QualType → string) (ctx : ASTContext)
    (reg : Registry) (e : Expr) {struct e} : bool :=
  match e with
  | CompoundLiteralExpr _ qt init => plainTexts getAsString ctx reg qt init
  | _ =>
      match exprToString getAsString e ctx reg with
      | Some s => braceFree s
      | None => true
      end
  end
with plainTexts (getAsString : QualType → string) (ctx : ASTContext)
    (reg : Registry) (qt : QualType) (init : Expr) {struct init} : bool :=
  match getAsRecordDecl qt with
  | None => true
  | Some rd =>
      match init with
      | InitListExpr _ inits =>
          braceFree (resolveTypeName getAsString qt ctx reg) &&
          pairedAll
            (fun f x => braceFree (getName f) &&
                        valuePlain getAsString ctx reg (IgnoreImpCasts x))
            true inits (fields rd)
      | _ => true
      end
  end.

(** The members of a group, each preceded by the separator. *)
Definition separated (members : list string) : string :=
  foldr (fun m acc => ", " +:+ m +:+ acc) "" members.

(** The text of a value in the specification's words (serializer and
    compound-literal-to-named-initializer): an integer literal is the
    decimal of its signed 64-bit value, a floating literal its decimal text,
    a string literal its content between double quotes followed by
    [.ref()], any other expression its source text; a compound literal is
    [Name{f0=v0, ...}] with [Name] the resolved name of its type and, for
    the i-th declared field, [vi] the text of the i-th initializer with its
    implicit conversions stripped -- or one of the two markers when its type
    is no record or its initializer no list. *)
Inductive SpecValue (getAsString : QualType → string) (ctx : ASTContext)
    (reg : Registry) : Expr → string → Prop :=
  | SpecInteger r v :
      SpecValue getAsString ctx reg (IntegerLiteral r v) (to_string (getSExtValue v))
  | SpecFloating r v :
      SpecValue getAsString ctx reg (FloatingLiteral r v) (toString v)
  | SpecString r s :
      SpecValue getAsString ctx reg (StringLiteral r s)
        (dquote +:+ s +:+ dquote +:+ ".ref()")
  | SpecOther e :
      isOtherKind e = true →
      SpecValue getAsString ctx reg e
        (default "" (getSourceText ctx (getBeginLoc e) (getEndLoc e)))
  | SpecCompound r qt init text :
      SpecInit getAsString ctx reg qt init text →
      SpecValue getAsString ctx reg (CompoundLiteralExpr r qt init) text
with SpecInit (getAsString : QualType → string) (ctx : ASTContext)
    (reg : Registry) : QualType → Expr → string → Prop :=
  | SpecNotRecord qt init :
      getAsRecordDecl qt = None →
      SpecInit getAsString ctx reg qt init "<not a record>"
  | SpecNotList qt rd init :
      getAsRecordDecl qt = Some rd → isInitListExpr init = false →
      SpecInit getAsString ctx reg qt init "<not an init list>"
  | SpecGroup qt rd r inits vals :
      getAsRecordDecl qt = Some rd →
      length vals = length (fields rd) →
      (∀ i f, fields rd !! i = Some f →
         ∃ x v, inits !! i = Some x ∧ vals !! i = Some v ∧
                SpecValue getAsString ctx reg (IgnoreImpCasts x) v) →
      SpecInit getAsString ctx reg qt (InitListExpr r inits)
        (namedInitText (resolveTypeName getAsString qt ctx reg) (fields rd) vals).

(** A header path that begins with [<] and ends with [>]. *)
Definition angleBracketPath (header_path : string) : Prop :=
  ∃ middle : string, header_path = String "<" (middle +:+ ">").

(** A top-level declaration of the sentinel variable. *)
Definition isSentinel (d : Decl) : bool :=
  match d with
  | VarDecl name _ => String.eqb name "__dummy_var"
  | OtherDecl => false
  end.

(** A sentinel whose initializer, implicit conversions stripped, is not a
    compound literal. *)
Definition nonLiteralSentinel (d : Decl) : bool :=
  match d with
  | VarDecl _ (Some init) => negb (isCompoundLiteral (IgnoreImpCasts init))
  | _ => false
  end.

(** The unsupported inputs of the Evaluation Entry Point, in the
    specification's words.  Outside the first case the caller's argument
    array holds [num_args] arguments. *)
Inductive UnsupportedInput
    (buildAST : string → list string → string → option ASTUnit)
    (header_path define_name : string) (clang_args : list string) (num_args : Z)
    : Prop :=
  | SystemHeader :
      angleBracketPath header_path →
      UnsupportedInput buildAST header_path define_name clang_args num_args
  | FailedParse args :
      driverArgs header_path clang_args num_args = Some args →
      buildAST (syntheticCode header_path define_name) args "macro_eval.c" = None →
      UnsupportedInput buildAST header_path define_name clang_args num_args
  | MissingSentinel args ast :
      driverArgs header_path clang_args num_args = Some args →
      buildAST (syntheticCode header_path define_name) args "macro_eval.c" = Some ast →
      Forall (fun d => isSentinel d = false) (decls ast) →
      UnsupportedInput buildAST header_path define_name clang_args num_args
  | NonLiteralSentinel args ast :
      driverArgs header_path clang_args num_args = Some args →
      buildAST (syntheticCode header_path define_name) args "macro_eval.c" = Some ast →
      Exists (fun d => isSentinel d = true) (decls ast) →
      Forall (fun d => isSentinel d = true → nonLiteralSentinel d = true) (decls ast) →
      UnsupportedInput buildAST header_path define_name clang_args num_args.

(** ** Example data *)

Module Examples.

Definition builtinSpelling (k : BuiltinKind) : string :=
  match k with
  | Void => "void" | Bool => "_Bool"
  | Char_U | Char_S => "char" | UChar => "unsigned char" | SChar => "signed char"
  | UShort => "unsigned short" | UInt => "unsigned int" | ULong => "unsigned long"
  | ULongLong => "unsigned long long" | UInt128 => "unsigned __int128"
  | Short => "short" | Int => "int" | Long => "long" | LongLong => "long long"
  | Int128 => "__int128"
  | Half => "__fp16" | Float => "float" | Double => "double"
  | LongDouble => "long double" | Float16 => "_Float16" | Float128 => "__float128"
  end.

(** A printer for the types of the examples, spelling them as clang does:
    builtins by their C name, a typedef by its name, tagged types with their
    tag keyword, a trailing star for object pointers and the parenthesised
    star declarator for pointers to functions without parameters. *)
Fixpoint spelling (qt : QualType) : string :=
  match qt with
  | QT q t => (if q_const q then "const " else "") +:+ nodeSpelling t
  end
with nodeSpelling (t : TypeNode) : string :=
  match t with
  | Builtin k => builtinSpelling k
  | Complex e => "_Complex " +:+ spelling e
  | Pointer (QT _ (FunctionProto r _)) =>
      spelling r +:+ " (" +:+ "*" +:+ ")(void)"
  | Pointer p => spelling p +:+ " *"
  | ConstantArray e n => spelling e +:+ "[" +:+ to_string (Z.of_N n) +:+ "]"
  | FunctionProto r _ => spelling r +:+ " (void)"
  | Enum ed => "enum " +:+ enum_name ed
  | Record_ rd => "struct " +:+ getNameAsString rd
  | Typedef n _ => n
  end.

Definition plain (t : TypeNode) : QualType := QT noQuals t.
Definition constQ (t : TypeNode) : QualType :=
  QT {| q_const := true; q_volatile := false; q_restrict := false |} t.

Definition intTy : QualType := plain (Builtin Int).
Definition ucharTy : QualType := plain (Builtin UChar).
(** [typedef long MyLong;] *)
Definition myLongTy : QualType := plain (Typedef "MyLong" (plain (Builtin Long))).
(** A pointer to a function taking nothing and returning nothing. *)
Definition callbackTy : QualType :=
  plain (Pointer (plain (FunctionProto (plain (Builtin Void)) []))).
(** [const char *] *)
Definition cstrTy : QualType := plain (Pointer (constQ (Builtin Char_S))).

(** [typedef struct Point { int x; int y; } Point;] *)
Definition PointDecl : RecordDecl :=
  mkRecordDecl "Point" [mkFieldDecl "x" intTy; mkFieldDecl "y" intTy].
Definition PointTy : QualType := plain (Typedef "Point" (plain (Record_ PointDecl))).

(** [typedef struct Shape { Point origin; const char *label; } Shape;] *)
Definition ShapeDecl : RecordDecl :=
  mkRecordDecl "Shape" [mkFieldDecl "origin" PointTy; mkFieldDecl "label" cstrTy].
Definition ShapeTy : QualType := plain (Typedef "Shape" (plain (Record_ ShapeDecl))).

Definition at_ (b e : N) : SourceRange := {| getBegin := b; getEnd := e |}.
Definition int32 (r : SourceRange) (z : Z) : Expr :=
  IntegerLiteral r {| BitWidth := 32; U := z |}.

(** [(Point){1, 2}] *)
Definition pointInit : Expr := InitListExpr (at_ 8 12) [int32 (at_ 9 9) 1; int32 (at_ 11 11) 2].
Definition pointLit : Expr := CompoundLiteralExpr (at_ 1 12) PointTy pointInit.

(** [(Shape){ (Point){1, 2}, "ok" }] *)
Definition shapeInits : list Expr :=
  [CompoundLiteralExpr (at_ 22 34) PointTy pointInit;
   ImplicitCastExpr (at_ 37 40) (StringLiteral (at_ 37 40) "ok")].
Definition shapeInit : Expr := InitListExpr (at_ 20 50) shapeInits.

(** [typedef union { int i; float f; } Union1;] of
    [tests/test_multiple_unions.h], and [(Union1){1}]: a union is a record
    with two fields, its initializer list holds one element. *)
Definition Union1Decl : RecordDecl :=
  mkRecordDecl "" [mkFieldDecl "i" intTy; mkFieldDecl "f" (plain (Builtin Float))].
Definition Union1Ty : QualType := plain (Typedef "Union1" (plain (Record_ Union1Decl))).
Definition unionInit : Expr := InitListExpr (at_ 9 11) [int32 (at_ 10 10) 1].

(** A context whose USR generator knows [Point] only and whose lexer
    resolves no range. *)
Definition ctxPoint : ASTContext :=
  {| generateUSRForType := fun qt =>
       match getAsRecordDecl qt with
       | Some rd => if String.eqb (getNameAsString rd) "Point"
                    then Some "c:@S@Point" else None
       | None => None
       end;
     getSourceText := fun _ _ => None |}.

(** A context in which no USR is generated and no range resolved. *)
Definition ctxBare : ASTContext :=
  {| generateUSRForType := fun _ => None; getSourceText := fun _ _ => None |}.

(** A context whose lexer resolves the range of the identifier [RED]. *)
Definition ctxEnum : ASTContext :=
  {| generateUSRForType := fun _ => None;
     getSourceText := fun b e =>
       if (b =? 9)%N && (e =? 9)%N then Some "RED" else None |}.

(** The registry after the host renamed [Point] to [Vec2]. *)
Definition regVec2 : Registry := {[ "c:@S@Point" := "Vec2" ]}.

(** A driver that parses nothing. *)
Definition noDriver : string → list string → string → option ASTUnit :=
  fun _ _ _ => None.

(** A driver whose translation unit holds the given declarations. *)
Definition driverOf (ds : list Decl) : string → list string → string → option ASTUnit :=
  fun _ _ _ => Some {| getASTContext := ctxPoint; decls := ds |}.

(** [#define P (Point){1, 2}] seen through the sentinel. *)
Definition declsPoint : list Decl := [OtherDecl; VarDecl "__dummy_var" (Some pointLit)].

(** [#define ANSWER 42] seen through the sentinel. *)
Definition declsAnswer : list Decl :=
  [OtherDecl; VarDecl "__dummy_var" (Some (int32 (at_ 30 31) 42))].

(** [int[2]] and the array literal [(int[2]){1, 2}]. *)
Definition arrayTy : QualType := plain (ConstantArray intTy 2).
Definition arrayLit : Expr :=
  CompoundLiteralExpr (at_ 1 14) arrayTy
    (InitListExpr (at_ 10 14) [int32 (at_ 11 11) 1; int32 (at_ 13 13) 2]).

(** [#define PAIR (int[2]){1, 2}] seen through the sentinel, after an
    unrelated variable of the header. *)
Definition declsArray : list Decl :=
  [VarDecl "counter" None; VarDecl "__dummy_var" (Some arrayLit)].

(** [typedef struct Buf { int *p; int n; } Buf;] and
    [(Buf){ (int[2]){1, 2}, 2 }]: the array literal decays to a pointer
    through an implicit cast. *)
Definition BufDecl : RecordDecl :=
  mkRecordDecl "Buf" [mkFieldDecl "p" (plain (Pointer intTy)); mkFieldDecl "n" intTy].
Definition BufTy : QualType := plain (Typedef "Buf" (plain (Record_ BufDecl))).
Definition bufInit : Expr :=
  InitListExpr (at_ 6 27) [ImplicitCastExpr (at_ 7 20) arrayLit; int32 (at_ 23 23) 2].

(** A string literal with an embedded NUL: the bytes [a], NUL, [b]. *)
Definition nulBytes : string := String "a" (String "000" (String "b" EmptyString)).

(** [struct Tag { const char *label; int n; }] and [(Tag){ "a\0b", 2 }]. *)
Definition TagDecl : RecordDecl :=
  mkRecordDecl "Tag" [mkFieldDecl "label" cstrTy; mkFieldDecl "n" intTy].
Definition TagTy : QualType := plain (Typedef "Tag" (plain (Record_ TagDecl))).
Definition tagLit : Expr :=
  CompoundLiteralExpr (at_ 1 20) TagTy
    (InitListExpr (at_ 6 20)
       [ImplicitCastExpr (at_ 7 13) (StringLiteral (at_ 7 13) nulBytes);
        int32 (at_ 16 16) 2]).
Definition declsTag : list Decl := [VarDecl "__dummy_var" (Some tagLit)].

(** A header that itself declares [extern int __dummy_var;]. *)
Definition declsClash : list Decl :=
  [OtherDecl; VarDecl "__dummy_var" None; VarDecl "__dummy_var" (Some pointLit)].

End Examples.

(** * Properties *)

(** ** Canonical types *)

Lemma addQuals_assoc a b c : addQuals a (addQuals b c) = addQuals (addQuals a b) c.
Proof. destruct a, b, c; unfold addQuals; simpl; by rewrite !orb_assoc. Qed.

Lemma withQuals_withQuals q q' qt :
  withQuals q (withQuals q' qt) = withQuals (addQuals q q') qt.
Proof. destruct qt; simpl. by rewrite addQuals_assoc. Qed.

Lemma getCanonicalType_withQuals q qt :
  getCanonicalType (withQuals q qt) = withQuals q (getCanonicalType qt).
Proof. destruct qt; simpl. by rewrite withQuals_withQuals. Qed.

(** Canonicalisation is idempotent: a canonical type is its own canonical
    type. *)
Lemma getCanonicalType_idem (qt : QualType) :
  getCanonicalType (getCanonicalType qt) = getCanonicalType qt
with canonicalTypeInternal_idem (t : TypeNode) :
  getCanonicalType (canonicalTypeInternal t) = canonicalTypeInternal t.
Proof.
  - destruct qt as [q t]; simpl.
    rewrite getCanonicalType_withQuals.
    f_equal. apply canonicalTypeInternal_idem.
  - destruct t as [k|e|p|e n|r ps|ed|rd|n u]; simpl.
    + reflexivity.
    + rewrite (getCanonicalType_idem e). reflexivity.
    + rewrite (getCanonicalType_idem p). reflexivity.
    + rewrite (getCanonicalType_idem e). reflexivity.
    + rewrite (getCanonicalType_idem r). do 2 f_equal.
      induction ps as [|p ps IH]; simpl; [reflexivity|].
      rewrite (getCanonicalType_idem p), IH. reflexivity.
    + reflexivity.
    + reflexivity.
    + apply getCanonicalType_idem.
Qed.

Lemma getAsBuiltin_canonical qt : getAsBuiltin (getCanonicalType qt) = getAsBuiltin qt.
Proof. unfold getAsBuiltin. by rewrite getCanonicalType_idem. Qed.

Lemma isSpecificBuiltinType_canonical qt K :
  isSpecificBuiltinType (getCanonicalType qt) K = isSpecificBuiltinType qt K.
Proof. unfold isSpecificBuiltinType. by rewrite getAsBuiltin_canonical. Qed.

Lemma isIntegerType_canonical qt : isIntegerType (getCanonicalType qt) = isIntegerType qt.
Proof. unfold isIntegerType. by rewrite getCanonicalType_idem. Qed.

Lemma isFloatingType_canonical qt : isFloatingType (getCanonicalType qt) = isFloatingType qt.
Proof. unfold isFloatingType. by rewrite getCanonicalType_idem. Qed.

Lemma isPointerType_canonical qt : isPointerType (getCanonicalType qt) = isPointerType qt.
Proof. unfold isPointerType. by rewrite getCanonicalType_idem. Qed.

Lemma getPointeeType_canonical qt :
  getPointeeType (getCanonicalType qt) = getPointeeType qt.
Proof. unfold getPointeeType. by rewrite getCanonicalType_idem. Qed.

(** The pointee of a canonical pointer type is canonical. *)
Lemma pointee_canonical qt p :
  getTypePtr (getCanonicalType qt) = Pointer p → getCanonicalType p = p.
Proof.
  intros H. pose proof (getCanonicalType_idem qt) as Hi.
  destruct (getCanonicalType qt) as [q t]; simpl in *; subst t.
  simpl in Hi. injection Hi as _ Hp. done.
Qed.

(** ** The type resolver *)

Section TypeResolver.

Variable getAsString : QualType → string.

(** With an empty registry the resolver is the structural normalisation. *)
Lemma resolveTypeName_empty qt ctx :
  resolveTypeName getAsString qt ctx ∅ = normalizeTypeName getAsString qt.
Proof. unfold resolveTypeName. by rewrite lookup_empty. Qed.

(** Where the lookup misses, the resolver is the structural normalisation. *)
Lemma resolveTypeName_miss qt ctx (reg : Registry) :
  reg !! getUSRForType qt ctx = None →
  resolveTypeName getAsString qt ctx reg = normalizeTypeName getAsString qt.
Proof. unfold resolveTypeName. by intros ->. Qed.

(** [normalizeTypeName] with the repeated canonicalisations folded. *)
Lemma normalizeTypeName_unfold qt :
  normalizeTypeName getAsString qt =
  if isIntegerType qt && isSpecificBuiltinType qt Int then "i32"
  else if isIntegerType qt && isSpecificBuiltinType qt Short then "i16"
  else if isIntegerType qt && isSpecificBuiltinType qt LongLong then "i64"
  else if isIntegerType qt &&
          (isSpecificBuiltinType qt Char_U || isSpecificBuiltinType qt Char_S)
       then "u8"
  else if isFloatingType qt && isSpecificBuiltinType qt Float then "f32"
  else if isFloatingType qt && isSpecificBuiltinType qt Double then "f64"
  else match getTypePtr (getCanonicalType qt) with
       | Pointer p => if isCharFlavour p then "str" else "anyptr"
       | _ => getAsString qt
       end.
Proof.
  unfold normalizeTypeName.
  rewrite isIntegerType_canonical, isFloatingType_canonical,
    isPointerType_canonical, getPointeeType_canonical,
    !isSpecificBuiltinType_canonical.
  repeat (case_match; [reflexivity|]).
  unfold isPointerType, getPointeeType.
  destruct (getTypePtr (getCanonicalType qt)) eqn:Hc; try reflexivity.
  rewrite !isSpecificBuiltinType_canonical.
  unfold isCharFlavour, isSpecificBuiltinType.
  by destruct (getAsBuiltin pointee) as [[]|].
Qed.

(** C1 (as amended): with an empty Override Registry, resolution maps every
    default case of the table to its fixed name -- int to i32, short to i16,
    long long to i64, plain char of either flavour to u8, float to f32,
    double to f64, a pointer whose canonicalised pointee is a character type
    of the signed or unsigned flavour to str, any other pointer to anyptr --
    the explicitly qualified unsigned char excepted. *)
Theorem C1_primitive_mapping_table (ctx : ASTContext) (qt : QualType) (name : string) :
  specDefaultName qt = Some name →
  getAsBuiltin qt ≠ Some UChar →
  resolveTypeName getAsString qt ctx ∅ = name.
Proof.
  intros Hspec Huc.
  rewrite resolveTypeName_empty, normalizeTypeName_unfold.
  unfold specDefaultName in Hspec.
  unfold isIntegerType, isFloatingType, isSpecificBuiltinType, getAsBuiltin in *.
  destruct (getTypePtr (getCanonicalType qt)) as [k| | | | | | |]; try discriminate.
  - destruct k; simpl in *; try discriminate; try congruence.
  - simpl. congruence.
Qed.

(** C3 (as amended): for every type whose canonical form is neither a
    builtin of the mapping table nor a pointer, and for which the registry
    lookup finds no entry, resolution returns the spelling of the type as it
    was given (typedef names kept), never an error. *)
Theorem C3_fallback_is_given_spelling (ctx : ASTContext) (reg : Registry) (qt : QualType) :
  specDefaultName qt = None ∨ getAsBuiltin qt = Some UChar →
  reg !! getUSRForType qt ctx = None →
  resolveTypeName getAsString qt ctx reg = getAsString qt.
Proof.
  intros Hout Hmiss.
  rewrite resolveTypeName_miss, normalizeTypeName_unfold by done.
  unfold specDefaultName in Hout.
  unfold isIntegerType, isFloatingType, isSpecificBuiltinType, getAsBuiltin in *.
  destruct (getTypePtr (getCanonicalType qt)) as [k|e| | | | | |];
    simpl in *; rewrite ?andb_false_r; try reflexivity.
  - destruct Hout as [Hout|Hout].
    + destruct k; simpl in *; try discriminate; reflexivity.
    + by simplify_eq.
  - by destruct Hout.
Qed.

(** C4: whenever the registry holds an entry under the type's Stable Type
    Identity, resolution returns the registered name, whatever the built-in
    category of the type; resolution is a total function and cannot fail. *)
Theorem C4_override_precedence (ctx : ASTContext) (reg : Registry) (qt : QualType)
    (usr name : string) :
  generateUSRForType ctx qt = Some usr →
  reg !! usr = Some name →
  resolveTypeName getAsString qt ctx reg = name.
Proof.
  intros Husr Hreg. unfold resolveTypeName, getUSRForType.
  by rewrite Husr, Hreg.
Qed.

(** A type without identity is looked up under the empty key. *)
Lemma resolveTypeName_no_identity (ctx : ASTContext) (reg : Registry) (qt : QualType) :
  generateUSRForType ctx qt = None →
  resolveTypeName getAsString qt ctx reg =
  match reg !! "" with
  | Some name => name
  | None => normalizeTypeName getAsString qt
  end.
Proof. intros H. unfold resolveTypeName, getUSRForType. by rewrite H. Qed.

End TypeResolver.

(** ** The override registry *)

Section OverrideRegistry.

Implicit Types (entries : list (string * string)) (m reg : Registry) (k : string).

Lemma insertAll_app entries entries' m :
  insertAll (entries ++ entries')%list m = insertAll entries' (insertAll entries m).
Proof. unfold insertAll. by rewrite foldl_app. Qed.

Lemma insertAll_lookup_absent entries m k :
  k ∉ entries.*1 → insertAll entries m !! k = m !! k.
Proof.
  revert m. induction entries as [|[k' v] entries IH]; intros m Hk; [done|].
  simpl in *. apply not_elem_of_cons in Hk as [Hne Hk].
  rewrite IH by done. by rewrite lookup_insert_ne.
Qed.

Lemma insertAll_lookup_last entries entries' m k name :
  k ∉ entries'.*1 →
  insertAll (entries ++ (k, name) :: entries')%list m !! k = Some name.
Proof.
  intros Hk. rewrite insertAll_app. simpl.
  rewrite insertAll_lookup_absent by done. by rewrite lookup_insert_eq.
Qed.

(** The loop of [set_custom_type_names] over the first [n] array slots. *)
Lemma set_custom_type_names_loop (usrs names : list string) (n : nat) :
  (n ≤ length usrs)%nat → (n ≤ length names)%nat →
  foldl (fun (acc : M Registry) (i : nat) =>
           m ← acc; usr ← usrs !! i; name ← names !! i; ret (<[usr := name]> m))
        (ret ∅) (seq 0 n)
  = Some (insertAll (zip (take n usrs) (take n names)) ∅).
Proof.
  induction n as [|n IH]; intros Hu Hn; [done|].
  rewrite seq_S, foldl_app, IH by lia. simpl.
  destruct (lookup_lt_is_Some_2 usrs n) as [u Hu']; [lia|].
  destruct (lookup_lt_is_Some_2 names n) as [v Hv']; [lia|].
  rewrite Hu', Hv'. simpl.
  rewrite (take_S_r _ _ _ Hu'), (take_S_r _ _ _ Hv').
  rewrite zip_with_app by (rewrite !length_take; lia).
  by rewrite insertAll_app.
Qed.

(** The bulk-set operation ignores the previous registry and installs the
    entries in order. *)
Lemma setAll_insertAll entries reg : setAll entries reg = Some (insertAll entries ∅).
Proof.
  unfold setAll, set_custom_type_names. rewrite Nat2Z.id.
  rewrite set_custom_type_names_loop by (by rewrite length_fmap).
  rewrite !take_ge by (by rewrite length_fmap).
  by rewrite zip_fst_snd.
Qed.

(** C5: the bulk-set operation replaces the registry wholesale.  After
    [setAll first] followed by [setAll second], a key present only in
    [first] is absent; within one call the last entry for a key wins. *)
Theorem C5_registry_replacement_is_total (first second : list (string * string))
    (reg0 : Registry) :
  ∃ reg1 reg2 : Registry,
    setAll first reg0 = Some reg1 ∧
    setAll second reg1 = Some reg2 ∧
    (∀ k, k ∈ first.*1 → k ∉ second.*1 → reg2 !! k = None) ∧
    (∀ before after k name,
       second = (before ++ (k, name) :: after)%list → k ∉ after.*1 →
       reg2 !! k = Some name).
Proof.
  exists (insertAll first ∅), (insertAll second ∅).
  rewrite !setAll_insertAll. repeat split.
  - intros k _ Hk. by rewrite insertAll_lookup_absent.
  - intros before after k name -> Hk. by apply insertAll_lookup_last.
Qed.

End OverrideRegistry.

(** ** The literal serializer *)

Section LiteralSerializer.

Variable getAsString : QualType → string.
Variable ctx : ASTContext.
Variable reg : Registry.

Local Abbreviation value := (fieldValue getAsString ctx reg).

(** [compoundLiteralToNamedInit] on a record type with a list initializer,
    in terms of the named loop. *)
Lemma compoundLiteralToNamedInit_record qt rd r inits :
  getAsRecordDecl qt = Some rd →
  compoundLiteralToNamedInit getAsString qt (InitListExpr r inits) ctx reg =
  out ← fieldLoop value inits (fields rd) 0%N
         (resolveTypeName getAsString qt ctx reg +:+ "{");
  ret (out +:+ "}").
Proof.
  intros Hrd. simpl. rewrite Hrd. reflexivity.
Qed.

(** The loop reads an initializer for every declared field: on a list
    shorter than the field list it reads past the end. *)
Lemma fieldLoop_short val rest fs i out :
  (length rest < length fs)%nat → fieldLoop val rest fs i out = Fault.
Proof.
  revert fs i out. induction rest as [|x rest IH]; intros [|f fs] i out Hlen;
    simpl in *; try lia; [done|].
  destruct (val x); simpl; [|done]. apply IH. lia.
Qed.

(** C7 (as amended): [compoundLiteralToNamedInit] does not abort on a
    malformed literal.  If the literal's type is not a record type it
    returns one sentinel marker; if the type is a record type but the
    initializer is not an initializer list it returns a different one. *)
Theorem C7_sentinel_markers (qt : QualType) (init : Expr) :
  (getAsRecordDecl qt = None → compoundLiteralToNamedInit getAsString qt init ctx reg = Some "<not a record>") ∧
  (is_Some (getAsRecordDecl qt) → isInitListExpr init = false →
   compoundLiteralToNamedInit getAsString qt init ctx reg = Some "<not an init list>") ∧
  "<not a record>" ≠ "<not an init list>".
Proof.
  split; [|split].
  - intros H. destruct init; simpl; by rewrite H.
  - intros [rd H] Hinit. destruct init; simpl in *; rewrite H; done.
  - done.
Qed.

(** C9 (as amended): for every expression of Other kind the serializer
    does not fail and returns, unmodified, what source-text extraction
    yields for the token range between the expression's begin and end
    locations: the source substring when the range can be resolved, the
    empty text when it cannot. *)
Theorem C9_fallback_returns_extracted_text (e : Expr) :
  isOtherKind e = true →
  exprToString getAsString e ctx reg =
  Some (default "" (getSourceText ctx (getBeginLoc e) (getEndLoc e))).
Proof. intros He. by destruct e. Qed.

(** C10: the field loop indexes the initializer list for every declared
    field without checking its length.  A record literal with fewer
    initializers than declared fields makes it read past the end of the
    list, so whenever the operation yields a text the initializer count is
    at least the declared field count. *)
Theorem C10_field_count_precondition (qt : QualType) (rd : RecordDecl)
    (r : SourceRange) (inits : list Expr) :
  getAsRecordDecl qt = Some rd →
  ((length inits < length (fields rd))%nat →
   compoundLiteralToNamedInit getAsString qt (InitListExpr r inits) ctx reg = Fault) ∧
  (is_Some (compoundLiteralToNamedInit getAsString qt (InitListExpr r inits) ctx reg) →
   (length (fields rd) ≤ length inits)%nat).
Proof.
  intros Hrd. rewrite (compoundLiteralToNamedInit_record _ _ _ _ Hrd).
  assert ((length inits < length (fields rd))%nat →
          (out ← fieldLoop value inits (fields rd) 0%N
                   (resolveTypeName getAsString qt ctx reg +:+ "{");
           ret (out +:+ "}")) = Fault) as Hshort.
  { intros Hlen. by rewrite fieldLoop_short. }
  split; [done|].
  intros [text Htext].
  destruct (decide (length inits < length (fields rd))%nat) as [Hlt|]; [|lia].
  rewrite Hshort in Htext by done. discriminate.
Qed.

End LiteralSerializer.

(** ** The evaluation entry point *)

Section EntryPoint.

Variable getAsString : QualType → string.
Variable buildAST : string → list string → string → option ASTUnit.

Lemma length_append (s t : string) :
  String.length (s +:+ t) = (String.length s + String.length t)%nat.
Proof. induction s as [|c s IH]; simpl; [done|]. by rewrite IH. Qed.

Lemma get_append_last (s : string) (c : ascii) :
  String.get (String.length s) (s +:+ String c "") = Some c.
Proof. induction s as [|d s IH]; simpl; done. Qed.

(** The argument loop reads [clang_args[0 .. num_args)]: it is defined when
    the array holds that many arguments. *)
Lemma driverArgs_total header_path (clang_args : list string) (num_args : Z) :
  (num_args ≤ Z.of_nat (length clang_args))%Z →
  is_Some (driverArgs header_path clang_args num_args).
Proof.
  intros Hn. unfold driverArgs.
  generalize (match find_last_of header_path "/\" with
              | Some last_slash =>
                  (["-x"; "c"; "-std=c11"] ++
                   ["-I" +:+ String.substring 0 last_slash header_path])%list
              | None => ["-x"; "c"; "-std=c11"]
              end) as args0.
  assert (Z.to_nat num_args ≤ length clang_args)%nat as Hle by lia.
  induction (Z.to_nat num_args) as [|n IH]; intros args0; [by eexists|].
  rewrite seq_S, foldl_app. destruct IH with (args0 := args0) as [args Hargs]; [lia|].
  rewrite Hargs. simpl.
  destruct (lookup_lt_is_Some_2 clang_args n) as [a Ha]; [lia|].
  rewrite Ha. by eexists.
Qed.

Lemma isAngleInclude_angleBracketPath header_path :
  angleBracketPath header_path → isAngleInclude header_path = true.
Proof.
  intros [middle ->]. unfold isAngleInclude. simpl String.get at 1.
  cbn [String.length]. rewrite length_append. simpl String.length.
  replace (S (String.length middle + 1) - 1)%nat with (S (String.length middle)) by lia.
  cbn [String.get]. by rewrite get_append_last.
Qed.

(** A scan in which every sentinel declaration carries an initializer that
    is not a compound literal finds nothing. *)
Lemma findDummyVar_nothing ds define_name ctx reg :
  Forall (fun d => isSentinel d = true → nonLiteralSentinel d = true) ds →
  findDummyVar getAsString ds define_name ctx reg = Some None.
Proof.
  induction 1 as [|d ds Hd _ IH]; [done|].
  destruct d as [name vinit|]; simpl in *; [|done].
  destruct (String.eqb name "__dummy_var"); [|done].
  specialize (Hd eq_refl). destruct vinit as [init|]; [|done]. simpl.
  destruct (IgnoreImpCasts init); simpl in *; done.
Qed.

(** C8: the Evaluation Entry Point returns absence, and does not fault, on
    every unsupported input: a header path that begins with [<] and ends
    with [>], a failed parse, a missing sentinel declaration, and a
    sentinel whose initializer, implicit conversions stripped, is not a
    compound literal. *)
Theorem C8_unsupported_input_returns_absence (header_path define_name : string)
    (clang_args : list string) (num_args : Z) (reg : Registry) :
  UnsupportedInput buildAST header_path define_name clang_args num_args →
  macro_to_named_initializer getAsString buildAST header_path define_name
    clang_args num_args reg = Some None.
Proof.
  intros Hin. unfold macro_to_named_initializer.
  destruct (isAngleInclude header_path) eqn:Hangle; [done|].
  destruct Hin as [Hpath|args Hargs Hparse|args ast Hargs Hparse Hnone
                  |args ast Hargs Hparse _ Hall].
  - by rewrite isAngleInclude_angleBracketPath in Hangle.
  - rewrite Hargs. simpl. by rewrite Hparse.
  - rewrite Hargs. simpl. rewrite Hparse. apply findDummyVar_nothing.
    eapply Forall_impl; [exact Hnone|]. simpl. intros d -> ?. done.
  - rewrite Hargs. simpl. rewrite Hparse. by apply findDummyVar_nothing.
Qed.

End EntryPoint.

(** ** Nested compound literals *)

Section Strings.

Lemma append_cons (c : ascii) (s t : string) : String c s +:+ t = String c (s +:+ t).
Proof. reflexivity. Qed.

Lemma append_assoc (s t u : string) : (s +:+ t) +:+ u = s +:+ t +:+ u.
Proof.
  induction s as [|c s IH]; [done|].
  rewrite !append_cons. f_equal. apply IH.
Qed.

Lemma append_nil_r (s : string) : s +:+ "" = s.
Proof.
  induction s as [|c s IH]; [done|].
  rewrite append_cons. f_equal. apply IH.
Qed.

Lemma concat_separated (m : string) (members : list string) :
  String.concat ", " (m :: members) = m +:+ separated members.
Proof.
  revert m. induction members as [|m' members IH]; intros m.
  - simpl. by rewrite append_nil_r.
  - change (String.concat ", " (m :: m' :: members))
      with (m +:+ ", " +:+ String.concat ", " (m' :: members)).
    by rewrite IH.
Qed.

Lemma braceScan_app (s t : string) (cur deepest : nat) :
  braceScan (s +:+ t) cur deepest =
  match braceScan s cur deepest with
  | Some (cur', deepest') => braceScan t cur' deepest'
  | None => None
  end.
Proof.
  revert cur deepest. induction s as [|c s IH]; intros cur deepest; [done|].
  rewrite append_cons. simpl.
  destruct (Ascii.eqb c "{"); [apply IH|].
  destruct (Ascii.eqb c "}"); [|apply IH].
  destruct cur; [done|apply IH].
Qed.

Lemma braceScan_braceFree (s : string) (cur deepest : nat) :
  braceFree s = true → braceScan s cur deepest = Some (cur, deepest).
Proof.
  induction s as [|c s IH]; simpl; [done|]. unfold isBrace.
  destruct (Ascii.eqb c "{"), (Ascii.eqb c "}"); simpl; done.
Qed.

Lemma braceScan_app_braceFree (s t : string) (cur deepest : nat) :
  braceFree s = true → braceScan (s +:+ t) cur deepest = braceScan t cur deepest.
Proof. intros Hs. by rewrite braceScan_app, braceScan_braceFree. Qed.

(** A text that keeps the level and reaches [d] more, followed by [t]. *)
Lemma braceScan_app_nested (s t : string) (cur deepest d : nat) :
  braceScan s cur deepest = Some (cur, deepest `max` (cur + d)) →
  braceScan (s +:+ t) cur deepest = braceScan t cur (deepest `max` (cur + d)).
Proof. intros Hs. by rewrite braceScan_app, Hs. Qed.

End Strings.

Section NestedLiterals.

Variable getAsString : QualType → string.
Variable ctx : ASTContext.
Variable reg : Registry.

Local Abbreviation value := (fieldValue getAsString ctx reg).
Local Abbreviation complete := (fun (_ : FieldDecl) x => valueComplete (IgnoreImpCasts x)).
Local Abbreviation plain :=
  (fun f x => braceFree (getName f) &&
              valuePlain getAsString ctx reg (IgnoreImpCasts x)).
Local Abbreviation depth := (fun x => valueDepth (IgnoreImpCasts x)).

(** Both branches of the field loop compute [exprToString] of the stripped
    initializer. *)
Lemma fieldValue_exprToString x :
  value x = exprToString getAsString (IgnoreImpCasts x) ctx reg.
Proof. unfold fieldValue. by destruct (IgnoreImpCasts x). Qed.

Lemma exprSize_IgnoreImpCasts e : (exprSize (IgnoreImpCasts e) ≤ exprSize e)%nat.
Proof. induction e; simpl; lia. Qed.

Lemma exprSize_elem (x : Expr) (inits : list Expr) :
  x ∈ inits → (exprSize x ≤ sum_list (map exprSize inits))%nat.
Proof.
  induction 1 as [x inits|x y inits _ IH]; simpl; lia.
Qed.

(** The loop after its first round: every member is preceded by the
    separator. *)
Lemma fieldLoop_separated val rest fs vals i out :
  (0 < i)%N →
  length vals = length fs →
  Forall2 (fun x v => val x = Some v) (take (length fs) rest) vals →
  fieldLoop val rest fs i out = Some (out +:+ separated (zip_with memberText fs vals)).
Proof.
  revert fs vals i out.
  induction rest as [|x rest IH]; intros [|f fs] [|v vals] i out Hi Hlen Hvals;
    simplify_eq/=; try (by rewrite append_nil_r); try (by inversion Hvals).
  apply Forall2_cons_1 in Hvals as [-> Hvals]. simpl.
  rewrite (IH fs vals) by (done || lia).
  destruct (0 <? i)%N eqn:Hi'; [|apply N.ltb_ge in Hi'; lia].
  f_equal. unfold memberText. by rewrite !append_assoc.
Qed.

(** The whole loop: the members joined with the separator. *)
Lemma fieldLoop_concat val rest fs vals out :
  length vals = length fs →
  Forall2 (fun x v => val x = Some v) (take (length fs) rest) vals →
  fieldLoop val rest fs 0%N out =
  Some (out +:+ String.concat ", " (zip_with memberText fs vals)).
Proof.
  intros Hlen Hvals.
  destruct fs as [|f fs], vals as [|v vals]; try discriminate.
  - rewrite append_nil_r. by destruct rest.
  - destruct rest as [|x rest]; [by inversion Hvals|].
    change (take (length (f :: fs)) (x :: rest)) with (x :: take (length fs) rest) in Hvals.
    apply Forall2_cons_1 in Hvals as [Hv Hvals].
    change (zip_with memberText (f :: fs) (v :: vals))
      with (memberText f v :: zip_with memberText fs vals).
    rewrite concat_separated. cbn [fieldLoop]. rewrite Hv. simpl.
    rewrite (fieldLoop_separated _ _ _ vals) by (done || (simpl in Hlen; lia)).
    f_equal. unfold memberText. by rewrite !append_assoc.
Qed.

(** What the induction establishes for a value [e]: if every record literal
    in it has enough initializers, [exprToString] yields a text; if moreover
    its names and leaf texts are brace-free, the braces of the text are
    balanced and nest exactly [valueDepth e] deep. *)
Local Abbreviation Rendered e :=
  (valueComplete e = true →
   ∃ s, exprToString getAsString e ctx reg = Some s ∧
        (valuePlain getAsString ctx reg e = true →
         ∀ cur mx, (cur ≤ mx)%nat →
           braceScan s cur mx = Some (cur, mx `max` (cur + valueDepth e)))).

Lemma members_rendered (inits : list Expr) :
  (∀ x, x ∈ inits → Rendered (IgnoreImpCasts x)) →
  ∀ fs, pairedAll complete false inits fs = true →
  ∃ vals,
    length vals = length fs ∧
    Forall2 (fun x v => value x = Some v) (take (length fs) inits) vals ∧
    (pairedAll plain true inits fs = true →
     ∀ cur mx, (cur ≤ mx)%nat →
       braceScan (separated (zip_with memberText fs vals)) cur mx =
       Some (cur, mx `max` (cur + pairedMax depth inits fs))).
Proof.
  induction inits as [|x inits IH]; intros Hall [|f fs] Hcomplete;
    try discriminate.
  - exists []. repeat split; [constructor|]. intros _ cur mx Hle. simpl.
    f_equal. f_equal. lia.
  - exists []. repeat split; [constructor|]. intros _ cur mx Hle. simpl.
    f_equal. f_equal. lia.
  - simpl in Hcomplete. apply andb_true_iff in Hcomplete as [Hx Hrest].
    destruct (Hall x (list_elem_of_here _ _) Hx) as (v & Hv & Hscan).
    destruct (IH (fun y Hy => Hall y (list_elem_of_further _ _ _ Hy)) fs Hrest)
      as (vals & Hlen & Hvals & Hscans).
    exists (v :: vals). split; [simpl; lia|]. split.
    + simpl. constructor; [|done]. by rewrite fieldValue_exprToString.
    + intros Hplain cur mx Hle. simpl in Hplain.
      apply andb_true_iff in Hplain as [Hfx Hplain].
      apply andb_true_iff in Hfx as [Hf Hpx].
      change (separated (zip_with memberText (f :: fs) (v :: vals)))
        with (", " +:+ memberText f v +:+ separated (zip_with memberText fs vals)).
      unfold memberText at 1. rewrite !append_assoc.
      rewrite (braceScan_app_braceFree ", ") by done.
      rewrite (braceScan_app_braceFree (getName f)) by done.
      rewrite (braceScan_app_braceFree "=") by done.
      rewrite (braceScan_app_nested v _ _ _ _ (Hscan Hpx cur mx Hle)).
      rewrite (Hscans Hplain) by lia.
      simpl. f_equal. f_equal. lia.
Qed.

Lemma record_literal_rendered qt rd r inits :
  getAsRecordDecl qt = Some rd →
  (∀ x, x ∈ inits → Rendered (IgnoreImpCasts x)) →
  enoughInitializers qt (InitListExpr r inits) = true →
  ∃ vals,
    length vals = length (fields rd) ∧
    Forall2 (fun x v => value x = Some v) (take (length (fields rd)) inits) vals ∧
    compoundLiteralToNamedInit getAsString qt (InitListExpr r inits) ctx reg =
      Some (namedInitText (resolveTypeName getAsString qt ctx reg) (fields rd) vals) ∧
    (plainTexts getAsString ctx reg qt (InitListExpr r inits) = true →
     ∀ cur mx, (cur ≤ mx)%nat →
       braceScan (namedInitText (resolveTypeName getAsString qt ctx reg) (fields rd) vals)
         cur mx =
       Some (cur, mx `max` (cur + nestingDepth qt (InitListExpr r inits)))).
Proof.
  intros Hrd Hall Henough. simpl in Henough. rewrite Hrd in Henough.
  destruct (members_rendered inits Hall (fields rd) Henough)
    as (vals & Hlen & Hvals & Hscan).
  exists vals. split; [done|]. split; [done|]. split.
  - rewrite (compoundLiteralToNamedInit_record _ _ _ _ _ _ _ Hrd).
    rewrite (fieldLoop_concat _ _ _ vals) by done. simpl.
    unfold namedInitText. by rewrite !append_assoc.
  - simpl. rewrite Hrd. intros Hplain cur mx Hle.
    apply andb_true_iff in Hplain as [Hname Hplain].
    specialize (Hscan Hplain (S cur) (mx `max` S cur) ltac:(lia)).
    unfold namedInitText.
    rewrite (braceScan_app_braceFree _ _ _ _ Hname).
    change ("{" +:+ ?t) with (String "{" t). cbn [braceScan Ascii.eqb Bool.eqb].
    destruct (zip_with memberText (fields rd) vals) as [|m members] eqn:Hm.
    + simpl in *. simplify_eq. f_equal. f_equal. lia.
    + rewrite concat_separated.
      change (separated (m :: members)) with (", " +:+ m +:+ separated members) in Hscan.
      rewrite (braceScan_app_braceFree ", ") in Hscan by done.
      rewrite braceScan_app, Hscan. simpl. f_equal. f_equal. lia.
Qed.

Lemma all_rendered (e : Expr) : Rendered e.
Proof.
  remember (exprSize e) as n eqn:Hn. revert e Hn.
  induction n as [n IH] using lt_wf_ind. intros e -> Hcomplete.
  assert (∀ s, exprToString getAsString e ctx reg = Some s → valueDepth e = 0%nat →
               (valuePlain getAsString ctx reg e = true → braceFree s = true) →
               ∃ s, exprToString getAsString e ctx reg = Some s ∧
                 (valuePlain getAsString ctx reg e = true →
                  ∀ cur mx, (cur ≤ mx)%nat →
                    braceScan s cur mx = Some (cur, mx `max` (cur + valueDepth e))))
    as Hleaf.
  { intros s Hs Hd Hfree. exists s. split; [done|]. intros Hplain cur mx Hle.
    rewrite braceScan_braceFree, Hd by auto. f_equal. f_equal. lia. }
  destruct e as [r v|r v|r b|r qt init|r inits|r sub|r];
    try (eapply Hleaf; [reflexivity|reflexivity|]; simpl; by intros ->).
  destruct (getAsRecordDecl qt) as [rd|] eqn:Hrd.
  - destruct init as [| | | |r' inits| |];
      try (apply (Hleaf "<not an init list>"); simpl; by rewrite Hrd).
    destruct (record_literal_rendered qt rd r' inits Hrd)
      as (vals & _ & _ & Htext & Hscan); [|done|].
    + intros x Hx. apply (IH (exprSize (IgnoreImpCasts x))); [|done].
      pose proof (exprSize_IgnoreImpCasts x).
      pose proof (exprSize_elem x inits Hx). simpl. lia.
    + exists (namedInitText (resolveTypeName getAsString qt ctx reg) (fields rd) vals).
      split; [done|]. done.
  - apply (Hleaf "<not a record>"); destruct init; simpl; by rewrite Hrd.
Qed.

(** The values of the fields, in the specification's words. *)
Lemma members_specified (inits : list Expr) :
  (∀ x, x ∈ inits → valueComplete (IgnoreImpCasts x) = true →
        ∃ s, exprToString getAsString (IgnoreImpCasts x) ctx reg = Some s ∧
             SpecValue getAsString ctx reg (IgnoreImpCasts x) s) →
  ∀ fs, pairedAll complete false inits fs = true →
  ∃ vals,
    length vals = length fs ∧
    Forall2 (fun x v => value x = Some v ∧
                        SpecValue getAsString ctx reg (IgnoreImpCasts x) v)
      (take (length fs) inits) vals.
Proof.
  induction inits as [|x inits IH]; intros Hall [|f fs] Hcomplete;
    try discriminate.
  - exists []. split; [done|constructor].
  - exists []. split; [done|constructor].
  - simpl in Hcomplete. apply andb_true_iff in Hcomplete as [Hx Hrest].
    destruct (Hall x (list_elem_of_here _ _) Hx) as (v & Hv & Hspec).
    destruct (IH (fun y Hy => Hall y (list_elem_of_further _ _ _ Hy)) fs Hrest)
      as (vals & Hlen & Hvals).
    exists (v :: vals). split; [simpl; lia|].
    simpl. constructor; [|done]. split; [|done].
    by rewrite fieldValue_exprToString.
Qed.

Lemma paired_lookup {P : Expr → string → Prop} (inits : list Expr)
    (fs : list FieldDecl) (vals : list string) :
  length vals = length fs →
  Forall2 P (take (length fs) inits) vals →
  ∀ i f, fs !! i = Some f →
    ∃ x v, inits !! i = Some x ∧ vals !! i = Some v ∧ P x v.
Proof.
  intros Hlen Hvals i f Hf.
  destruct (lookup_lt_is_Some_2 vals i) as [v Hv].
  { rewrite Hlen. by eapply lookup_lt_Some. }
  destruct (Forall2_lookup_r _ _ _ _ _ Hvals Hv) as (x & Hx & Hxv).
  exists x, v. apply lookup_take_Some in Hx. tauto.
Qed.

(** A record literal with a list initializer and an initializer per field,
    given the texts of its initializers. *)
Lemma record_literal_specified qt rd r inits :
  getAsRecordDecl qt = Some rd →
  (∀ x, x ∈ inits → valueComplete (IgnoreImpCasts x) = true →
        ∃ s, exprToString getAsString (IgnoreImpCasts x) ctx reg = Some s ∧
             SpecValue getAsString ctx reg (IgnoreImpCasts x) s) →
  enoughInitializers qt (InitListExpr r inits) = true →
  ∃ vals,
    length vals = length (fields rd) ∧
    (∀ i f, fields rd !! i = Some f →
       ∃ x v, inits !! i = Some x ∧ vals !! i = Some v ∧
              SpecValue getAsString ctx reg (IgnoreImpCasts x) v) ∧
    compoundLiteralToNamedInit getAsString qt (InitListExpr r inits) ctx reg =
      Some (namedInitText (resolveTypeName getAsString qt ctx reg) (fields rd) vals).
Proof.
  intros Hrd Hall Henough. simpl in Henough. rewrite Hrd in Henough.
  destruct (members_specified inits Hall (fields rd) Henough) as (vals & Hlen & Hvals).
  exists vals. split; [done|]. split.
  - intros i f Hf.
    destruct (paired_lookup inits (fields rd) vals Hlen Hvals i f Hf)
      as (x & v & Hx & Hv & _ & Hspec).
    by exists x, v.
  - rewrite (compoundLiteralToNamedInit_record _ _ _ _ _ _ _ Hrd).
    rewrite (fieldLoop_concat _ _ _ vals); [|done|].
    + simpl. unfold namedInitText. by rewrite !append_assoc.
    + eapply Forall2_impl; [exact Hvals|]. by intros x v [Hv _].
Qed.

(** The serializer computes the text the specification describes, for every
    expression in which each record literal has an initializer per field. *)
Lemma all_specified (e : Expr) :
  valueComplete e = true →
  ∃ s, exprToString getAsString e ctx reg = Some s ∧
       SpecValue getAsString ctx reg e s.
Proof.
  remember (exprSize e) as n eqn:Hn. revert e Hn.
  induction n as [n IH] using lt_wf_ind. intros e -> Hcomplete.
  destruct e as [r v|r v|r b|r qt init|r inits|r sub|r].
  - eexists. split; [reflexivity|constructor].
  - eexists. split; [reflexivity|constructor].
  - eexists. split; [reflexivity|constructor].
  - destruct (getAsRecordDecl qt) as [rd|] eqn:Hrd.
    + destruct (isInitListExpr init) eqn:Hlist.
      * destruct init as [| | | |r' inits| |]; try discriminate.
        destruct (record_literal_specified qt rd r' inits Hrd)
          as (vals & Hlen & Hvals & Htext); [|done|].
        { intros x Hx. apply (IH (exprSize (IgnoreImpCasts x))); [|done].
          pose proof (exprSize_IgnoreImpCasts x).
          pose proof (exprSize_elem x inits Hx). simpl. lia. }
        eexists. split; [exact Htext|].
        constructor. by eapply SpecGroup.
      * exists "<not an init list>". split.
        { destruct init; simpl in *; rewrite Hrd; done. }
        constructor. by eapply SpecNotList.
    + exists "<not a record>". split.
      { destruct init; simpl; by rewrite Hrd. }
      constructor. by apply SpecNotRecord.
  - eexists. split; [reflexivity|]. by apply (SpecOther _ _ _ (InitListExpr r inits)).
  - eexists. split; [reflexivity|]. by apply (SpecOther _ _ _ (ImplicitCastExpr r sub)).
  - eexists. split; [reflexivity|]. by apply (SpecOther _ _ _ (OtherExpr r)).
Qed.

(** Where every compound literal is a record literal with a list
    initializer, the depth the specification counts is the number of nested
    groups the serializer emits. *)
Lemma pairedMax_records_only (inits : list Expr) :
  (∀ x, x ∈ inits → valueRecordsOnly (IgnoreImpCasts x) = true →
        valueLiteralDepth (IgnoreImpCasts x) = valueDepth (IgnoreImpCasts x)) →
  ∀ fs,
    pairedAll (fun _ x => valueRecordsOnly (IgnoreImpCasts x)) true inits fs = true →
    pairedMax (fun x => valueLiteralDepth (IgnoreImpCasts x)) inits fs =
    pairedMax depth inits fs.
Proof.
  induction inits as [|x inits IH]; intros Hall [|f fs] Honly; try done.
  simpl in *. apply andb_true_iff in Honly as [Hx Hrest].
  rewrite (Hall x) by (done || by left).
  rewrite IH; [done| |done]. intros y Hy. apply Hall. by right.
Qed.

Lemma valueLiteralDepth_records_only (e : Expr) :
  valueRecordsOnly e = true → valueLiteralDepth e = valueDepth e.
Proof.
  remember (exprSize e) as n eqn:Hn. revert e Hn.
  induction n as [n IH] using lt_wf_ind. intros e -> Honly.
  destruct e as [r v|r v|r b|r qt init|r inits|r sub|r]; try reflexivity.
  destruct init as [| | | |r' inits| |]; simpl in *;
    destruct (getAsRecordDecl qt) as [rd|]; try done.
  f_equal. apply pairedMax_records_only; [|done].
  intros x Hx. apply (IH (exprSize (IgnoreImpCasts x))); [|done].
  pose proof (exprSize_IgnoreImpCasts x).
  pose proof (exprSize_elem x inits Hx). simpl. lia.
Qed.

(** C2 (as amended): a record literal with a list initializer in which
    every record literal, at every level, has an initializer for each
    declared field is rendered as [Name{f0=v0, f1=v1, ...}]: one
    [fieldName=value] member per declared field, in declared order, the i-th
    field paired with the text of the i-th initializer as the specification
    describes it (signed decimal, floating text, quoted string with [.ref()],
    source text, a nested [Name{...}] or a marker).  When moreover every
    compound literal reached through the field values is a record literal
    with a list initializer, and the names and leaf texts carry no braces of
    their own, the braces of the text are balanced and nest exactly as deep
    as the literal: a literal of nesting depth N yields N nested groups. *)
Theorem C2_nested_named_initializers (qt : QualType) (rd : RecordDecl)
    (r : SourceRange) (inits : list Expr) :
  getAsRecordDecl qt = Some rd →
  enoughInitializers qt (InitListExpr r inits) = true →
  ∃ vals : list string,
    length vals = length (fields rd) ∧
    (∀ i f, fields rd !! i = Some f →
       ∃ x v, inits !! i = Some x ∧ vals !! i = Some v ∧
              SpecValue getAsString ctx reg (IgnoreImpCasts x) v) ∧
    compoundLiteralToNamedInit getAsString qt (InitListExpr r inits) ctx reg =
      Some (namedInitText (resolveTypeName getAsString qt ctx reg) (fields rd) vals) ∧
    (recordLiteralsOnly qt (InitListExpr r inits) = true →
     plainTexts getAsString ctx reg qt (InitListExpr r inits) = true →
     groupDepth (namedInitText (resolveTypeName getAsString qt ctx reg) (fields rd) vals)
     = Some (literalDepth qt (InitListExpr r inits))).
Proof.
  intros Hrd Henough.
  destruct (record_literal_specified qt rd r inits Hrd) as
    (vals & Hlen & Hvals & Htext); [|done|].
  { intros x _. apply all_specified. }
  exists vals. split; [done|]. split; [done|]. split; [done|].
  intros Honly Hplain.
  destruct (record_literal_rendered qt rd r inits Hrd) as
    (vals' & _ & _ & Htext' & Hscan); [|done|].
  { intros x _. apply all_rendered. }
  rewrite Htext in Htext'. injection Htext' as Htext'. rewrite Htext'.
  unfold groupDepth. rewrite (Hscan Hplain 0%nat 0%nat) by lia.
  change (literalDepth qt (InitListExpr r inits))
    with (valueLiteralDepth (CompoundLiteralExpr r qt (InitListExpr r inits))).
  rewrite valueLiteralDepth_records_only by done. done.
Qed.

End NestedLiterals.

(** * The engine on concrete inputs *)

Section Concrete.

Import Examples.

(** The end-to-end scenarios of the specification. *)
Example evaluate_point :
  macro_to_named_initializer spelling (driverOf declsPoint) "header.h" "P" [] 0 ∅
  = Some (Some "Point P = Point{x=1, y=2};").
Proof. reflexivity. Qed.

Example evaluate_point_renamed :
  macro_to_named_initializer spelling (driverOf declsPoint) "header.h" "P" [] 0 regVec2
  = Some (Some "Vec2 P = Vec2{x=1, y=2};").
Proof. reflexivity. Qed.

Example driverArgs_include_path :
  driverArgs "include/geo/header.h" ["-DX=1"] 1
  = Some ["-x"; "c"; "-std=c11"; "-Iinclude/geo"; "-DX=1"].
Proof. reflexivity. Qed.

Example getSExtValue_wraps :
  to_string (getSExtValue {| BitWidth := 32; U := 4294967295 |}) = "-1".
Proof. reflexivity. Qed.

End Concrete.

(** * Instances and counterexamples *)

Section Instances.

Import Examples.

(** [int] resolves to [i32] under the empty registry. *)
Lemma C1_primitive_mapping_table_witness :
  specDefaultName intTy = Some "i32" ∧
  getAsBuiltin intTy ≠ Some UChar ∧
  resolveTypeName spelling intTy ctxBare ∅ = "i32".
Proof.
  split; [reflexivity|]. split; [discriminate|].
  apply (C1_primitive_mapping_table spelling ctxBare intTy "i32");
    [reflexivity|discriminate].
Defined.

(** C1 as stated fails on [unsigned char]: it is the builtin kind [UChar],
    which the resolver does not map, so it keeps its spelling. *)
Lemma C1_unsigned_char_counterexample :
  ¬ (∀ (getAsString : QualType → string) (ctx : ASTContext) (qt : QualType)
       (name : string),
       specDefaultName qt = Some name →
       resolveTypeName getAsString qt ctx ∅ = name).
Proof.
  intros H. specialize (H spelling ctxBare ucharTy "u8" eq_refl).
  vm_compute in H. discriminate.
Qed.

(** The two cells of [C1_unsigned_char_counterexample], evaluated. *)
Example unsigned_char_keeps_its_spelling :
  specDefaultName ucharTy = Some "u8" ∧
  resolveTypeName spelling ucharTy ctxBare ∅ = "unsigned char".
Proof. split; reflexivity. Qed.

(** An enum-free instance of the fallback: [typedef long MyLong;]. *)
Lemma C3_fallback_is_given_spelling_witness :
  (specDefaultName myLongTy = None ∨ getAsBuiltin myLongTy = Some UChar) ∧
  (∅ : Registry) !! getUSRForType myLongTy ctxBare = None ∧
  resolveTypeName spelling myLongTy ctxBare ∅ = "MyLong".
Proof.
  split; [left; reflexivity|]. split; [reflexivity|].
  apply (C3_fallback_is_given_spelling spelling ctxBare ∅ myLongTy);
    [left; reflexivity|reflexivity].
Defined.

(** C3 as stated fails twice.  A typedef outside the table resolves to the
    typedef's name, not to the spelling of its canonical type; and a function
    pointer is a pointer, so it resolves to [anyptr] and not to a spelling. *)
Lemma C3_canonical_spelling_counterexample :
  ¬ (∀ (getAsString : QualType → string) (ctx : ASTContext) (reg : Registry)
       (qt : QualType),
       specDefaultName qt = None →
       reg !! getUSRForType qt ctx = None →
       resolveTypeName getAsString qt ctx reg = getAsString (getCanonicalType qt))
  ∧ resolveTypeName spelling callbackTy ctxBare ∅ = "anyptr"
  ∧ spelling (getCanonicalType callbackTy) ≠ "anyptr".
Proof.
  split; [|split; [reflexivity|discriminate]].
  intros H. specialize (H spelling ctxBare ∅ myLongTy eq_refl eq_refl).
  vm_compute in H. discriminate.
Qed.

Example typedef_keeps_its_name :
  resolveTypeName spelling myLongTy ctxBare ∅ = "MyLong" ∧
  spelling (getCanonicalType myLongTy) = "long".
Proof. split; reflexivity. Qed.

(** [Point], renamed by the host, resolves to the registered name. *)
Lemma C4_override_precedence_witness :
  generateUSRForType ctxPoint PointTy = Some "c:@S@Point" ∧
  regVec2 !! "c:@S@Point" = Some "Vec2" ∧
  resolveTypeName spelling PointTy ctxPoint regVec2 = "Vec2".
Proof.
  split; [reflexivity|]. split; [reflexivity|].
  apply (C4_override_precedence spelling ctxPoint regVec2 PointTy "c:@S@Point" "Vec2");
    reflexivity.
Defined.

(** Two bulk-sets in a row: the key of the first is gone. *)
Lemma C5_registry_replacement_is_total_witness :
  ∃ reg1 reg2 : Registry,
    setAll [("k1", "n1")] ∅ = Some reg1 ∧
    setAll [("k2", "n2"); ("k2", "n3")] reg1 = Some reg2 ∧
    reg2 !! "k1" = None ∧
    reg2 !! "k2" = Some "n3".
Proof.
  destruct (C5_registry_replacement_is_total
              [("k1", "n1")] [("k2", "n2"); ("k2", "n3")] ∅)
    as (reg1 & reg2 & H1 & H2 & Habsent & Hlast).
  exists reg1, reg2. split; [exact H1|]. split; [exact H2|]. split.
  - apply Habsent; simpl.
    + apply list_elem_of_here.
    + rewrite !not_elem_of_cons. repeat split; try discriminate.
      apply not_elem_of_nil.
  - apply (Hlast [("k2", "n2")] []); [reflexivity|]. apply not_elem_of_nil.
Defined.

(** C6 on the code: identity generation fails for the type, [getUSRForType]
    returns the empty string, and the registry entry filed under the empty
    key is returned as the type's override. *)
Lemma C6_empty_key_overrides_type_without_identity :
  generateUSRForType ctxBare PointTy = None ∧
  ∃ reg : Registry,
    set_custom_type_names [""] ["Hijacked"] 1 ∅ = Some reg ∧
    resolveTypeName spelling PointTy ctxBare reg = "Hijacked" ∧
    normalizeTypeName spelling PointTy = "Point".
Proof.
  split; [reflexivity|]. eexists. split; [reflexivity|]. split; reflexivity.
Qed.

(** Both markers: [(int){...}] and a [Point] literal without list. *)
Lemma C7_sentinel_markers_witness :
  compoundLiteralToNamedInit spelling intTy pointInit ctxBare ∅
    = Some "<not a record>" ∧
  compoundLiteralToNamedInit spelling PointTy (OtherExpr (at_ 7 9)) ctxBare ∅
    = Some "<not an init list>".
Proof.
  split.
  - apply (C7_sentinel_markers spelling ctxBare ∅ intTy pointInit). reflexivity.
  - apply (C7_sentinel_markers spelling ctxBare ∅ PointTy (OtherExpr (at_ 7 9)));
      [by eexists|reflexivity].
Defined.

(** C7 as stated fails on a literal that is malformed in both ways: the
    record test comes first. *)
Lemma C7_both_malformed_counterexample :
  ¬ (∀ (getAsString : QualType → string) (ctx : ASTContext) (reg : Registry)
       (qt : QualType) (init : Expr),
       isInitListExpr init = false →
       compoundLiteralToNamedInit getAsString qt init ctx reg
       = Some "<not an init list>").
Proof.
  intros H.
  specialize (H spelling ctxBare ∅ intTy (OtherExpr (at_ 7 9)) eq_refl).
  vm_compute in H. discriminate.
Qed.

Example both_malformed_is_not_a_record :
  compoundLiteralToNamedInit spelling intTy (OtherExpr (at_ 7 9)) ctxBare ∅
  = Some "<not a record>".
Proof. reflexivity. Qed.

(** The four kinds of unsupported input, each on the engine. *)
Lemma C8_unsupported_input_returns_absence_witness :
  UnsupportedInput noDriver "<stdio.h>" "EOF" [] 0 ∧
  macro_to_named_initializer spelling noDriver "<stdio.h>" "EOF" [] 0 ∅ = Some None ∧
  macro_to_named_initializer spelling noDriver "missing.h" "P" [] 0 ∅ = Some None ∧
  macro_to_named_initializer spelling (driverOf [OtherDecl]) "header.h" "P" [] 0 ∅
    = Some None ∧
  macro_to_named_initializer spelling (driverOf declsAnswer) "header.h" "ANSWER" [] 0 ∅
    = Some None.
Proof.
  assert (UnsupportedInput noDriver "<stdio.h>" "EOF" [] 0) as Hsys.
  { apply SystemHeader. by exists "stdio.h". }
  split; [exact Hsys|]. split; [|split; [|split]].
  - apply (C8_unsupported_input_returns_absence spelling noDriver). exact Hsys.
  - apply (C8_unsupported_input_returns_absence spelling noDriver).
    by eapply FailedParse.
  - apply (C8_unsupported_input_returns_absence spelling (driverOf [OtherDecl])).
    eapply MissingSentinel; [reflexivity|reflexivity|].
    repeat constructor.
  - apply (C8_unsupported_input_returns_absence spelling (driverOf declsAnswer)).
    eapply NonLiteralSentinel; [reflexivity|reflexivity| |].
    + apply Exists_cons_tl, Exists_cons_hd. reflexivity.
    + repeat constructor; simpl; done.
Defined.

(** The identifier [RED], passed through from the source. *)
Lemma C9_fallback_returns_extracted_text_witness :
  isOtherKind (OtherExpr (at_ 9 9)) = true ∧
  exprToString spelling (OtherExpr (at_ 9 9)) ctxEnum ∅ = Some "RED".
Proof.
  split; [reflexivity|].
  apply (C9_fallback_returns_extracted_text spelling ctxEnum ∅ (OtherExpr (at_ 9 9))).
  reflexivity.
Defined.

(** C9 as stated fails where the lexer cannot resolve the range: the
    fallback then returns the empty text. *)
Lemma C9_empty_text_counterexample :
  ¬ (∀ (getAsString : QualType → string) (ctx : ASTContext) (reg : Registry)
       (e : Expr),
       isOtherKind e = true →
       ∃ text, exprToString getAsString e ctx reg = Some text ∧ text ≠ "").
Proof.
  intros H.
  destruct (H spelling ctxBare ∅ (OtherExpr (at_ 9 9)) eq_refl) as (text & Ht & Hne).
  vm_compute in Ht. by simplify_eq.
Qed.

(** [(Union1){1}] against the two fields of [Union1]. *)
Lemma C10_field_count_precondition_witness :
  getAsRecordDecl Union1Ty = Some Union1Decl ∧
  (length [int32 (at_ 10 10) 1] < length (fields Union1Decl))%nat ∧
  compoundLiteralToNamedInit spelling Union1Ty unionInit ctxPoint ∅ = Fault.
Proof.
  split; [reflexivity|]. split; [simpl; lia|].
  apply (C10_field_count_precondition spelling ctxPoint ∅ Union1Ty Union1Decl
           (at_ 9 11) [int32 (at_ 10 10) 1]); [reflexivity|simpl; lia].
Defined.

(** [(Shape){ (Point){1, 2}, "ok" }]: two levels, two nested groups. *)
Lemma C2_nested_named_initializers_witness :
  getAsRecordDecl ShapeTy = Some ShapeDecl ∧
  enoughInitializers ShapeTy shapeInit = true ∧
  recordLiteralsOnly ShapeTy shapeInit = true ∧
  plainTexts spelling ctxPoint ∅ ShapeTy shapeInit = true ∧
  literalDepth ShapeTy shapeInit = 2%nat ∧
  ∃ vals : list string,
    length vals = 2%nat ∧
    compoundLiteralToNamedInit spelling ShapeTy shapeInit ctxPoint ∅ =
      Some (namedInitText "Shape" (fields ShapeDecl) vals) ∧
    groupDepth (namedInitText "Shape" (fields ShapeDecl) vals) = Some 2%nat.
Proof.
  split; [reflexivity|]. split; [reflexivity|]. split; [reflexivity|].
  split; [reflexivity|]. split; [reflexivity|].
  destruct (C2_nested_named_initializers spelling ctxPoint ∅ ShapeTy ShapeDecl
              (at_ 20 50) shapeInits eq_refl eq_refl)
    as (vals & Hlen & _ & Htext & Hdepth).
  exists vals. split; [exact Hlen|]. split; [exact Htext|].
  exact (Hdepth eq_refl eq_refl).
Defined.

Example shape_text :
  compoundLiteralToNamedInit spelling ShapeTy shapeInit ctxPoint ∅ =
  Some ("Shape{origin=Point{x=1, y=2}, label=" +:+ dquote +:+ "ok" +:+ dquote
        +:+ ".ref()}").
Proof. reflexivity. Qed.

(** C2 as stated fails in two ways.  In [(Buf){ (int[2]){1, 2}, 2 }] the
    value of a record field is itself a compound literal, so the literal is
    two levels deep, but the inner literal has no record type: it is
    rendered as the marker and the text has one group.  And [(Union1){1}],
    with two declared fields and one initializer, yields no text at all. *)
Lemma C2_nesting_counterexample :
  (getAsRecordDecl BufTy = Some BufDecl ∧
   enoughInitializers BufTy bufInit = true ∧
   literalDepth BufTy bufInit = 2%nat ∧
   compoundLiteralToNamedInit spelling BufTy bufInit ctxBare ∅
     = Some "Buf{p=<not a record>, n=2}" ∧
   groupDepth "Buf{p=<not a record>, n=2}" = Some 1%nat) ∧
  (getAsRecordDecl Union1Ty = Some Union1Decl ∧
   compoundLiteralToNamedInit spelling Union1Ty unionInit ctxBare ∅ = None).
Proof. repeat split; reflexivity. Qed.

End Instances.

(** * Further properties of the engine *)

Set Warnings "-clear-no-such-hyp".

(** ** The bulk-set entry point on arbitrary arrays *)

Section BulkSet.

Implicit Types (usrs names : list string) (reg : Registry).

Lemma insertAll_dom (entries : list (string * string)) (m : Registry) :
  dom (insertAll entries m) = list_to_set entries.*1 ∪ dom m.
Proof.
  revert m. induction entries as [|[k v] entries IH]; intros m; simpl.
  - set_solver.
  - rewrite IH, dom_insert_L. set_solver.
Qed.

Lemma size_list_to_set_bound (l : list string) :
  (size (list_to_set l : gset string) ≤ length l)%nat.
Proof.
  induction l as [|x l IH].
  - change (list_to_set [] : gset string) with (∅ : gset string).
    rewrite size_empty. simpl. lia.
  - change (list_to_set (x :: l) : gset string)
      with ({[x]} ∪ list_to_set l : gset string).
    rewrite size_union_alt, size_singleton. simpl.
    pose proof (subseteq_size (list_to_set l ∖ {[x]}) (list_to_set l : gset string)
                  ltac:(set_solver)).
    lia.
Qed.

(** Once the loop has faulted it stays faulted. *)
Lemma bulk_loop_fault usrs names (indices : list nat) :
  foldl (fun (acc : M Registry) (i : nat) =>
           m ← acc; usr ← usrs !! i; name ← names !! i; ret (<[usr := name]> m))
        None indices = None.
Proof. induction indices as [|i indices IH]; [done|]. apply IH. Qed.

(** The loop faults as soon as [count] exceeds one of the arrays. *)
Lemma bulk_loop_out_of_range usrs names (n : nat) :
  (length usrs `min` length names < n)%nat →
  foldl (fun (acc : M Registry) (i : nat) =>
           m ← acc; usr ← usrs !! i; name ← names !! i; ret (<[usr := name]> m))
        (ret ∅) (seq 0 n) = None.
Proof.
  intros Hn.
  set (k := (length usrs `min` length names)%nat) in *.
  replace n with (k + S (n - S k))%nat by lia.
  rewrite seq_app, foldl_app.
  rewrite set_custom_type_names_loop by (unfold k; lia).
  simpl seq. simpl foldl.
  destruct (usrs !! k) as [u|] eqn:Hu; simpl.
  - destruct (names !! k) as [v|] eqn:Hv; simpl; [|apply bulk_loop_fault].
    apply lookup_lt_Some in Hu, Hv. unfold k in *. lia.
  - apply bulk_loop_fault.
Qed.

(** X1: [set_custom_type_names] is defined exactly when [count] does not
    exceed the length of either array; a negative or zero [count] is always
    in range. *)
Theorem set_custom_type_names_defined_iff usrs names (count : Z) reg :
  is_Some (set_custom_type_names usrs names count reg) ↔
  (count ≤ Z.of_nat (length usrs) ∧ count ≤ Z.of_nat (length names))%Z.
Proof.
  unfold set_custom_type_names. split.
  - intros [reg' Hreg'].
    destruct (decide (length usrs `min` length names < Z.to_nat count)%nat) as [Hlt|];
      [|lia].
    rewrite bulk_loop_out_of_range in Hreg' by done. discriminate.
  - intros [Hu Hn]. rewrite set_custom_type_names_loop by lia. by eexists.
Qed.

(** X2: within range, only the first [count] pairs are read, the previous
    registry is discarded, and the keys of the new registry are exactly the
    first [count] identities: no key is invented and none is dropped. *)
Theorem set_custom_type_names_reads_prefix usrs names (count : Z) reg :
  (count ≤ Z.of_nat (length usrs))%Z →
  (count ≤ Z.of_nat (length names))%Z →
  ∃ reg' : Registry,
    set_custom_type_names usrs names count reg = Some reg' ∧
    reg' = insertAll (zip (take (Z.to_nat count) usrs) (take (Z.to_nat count) names)) ∅ ∧
    dom reg' = list_to_set (take (Z.to_nat count) usrs) ∧
    (size reg' ≤ Z.to_nat count)%nat.
Proof.
  intros Hu Hn. eexists. split; [|split; [reflexivity|]].
  - unfold set_custom_type_names. by rewrite set_custom_type_names_loop by lia.
  - assert (dom (insertAll (zip (take (Z.to_nat count) usrs)
                                (take (Z.to_nat count) names)) ∅)
            = list_to_set (take (Z.to_nat count) usrs)) as Hdom.
    { rewrite insertAll_dom, dom_empty_L, fst_zip by (rewrite !length_take; lia).
      set_solver. }
    split; [exact Hdom|].
    rewrite <- size_dom, Hdom.
    etrans; [apply size_list_to_set_bound|]. rewrite length_take. lia.
Qed.

End BulkSet.

(** ** The registry seen through the resolver *)

Section RegistryAndResolver.

Variable getAsString : QualType → string.

(** X3: a bulk-set with a [count] of zero or less, whatever the arrays
    hold, removes every override: afterwards every type resolves
    structurally. *)
Theorem set_custom_type_names_nonpositive_resets (usrs names : list string)
    (count : Z) (reg : Registry) :
  (count ≤ 0)%Z →
  ∃ reg' : Registry,
    set_custom_type_names usrs names count reg = Some reg' ∧
    ∀ qt ctx, resolveTypeName getAsString qt ctx reg'
              = normalizeTypeName getAsString qt.
Proof.
  intros Hc. exists ∅. split.
  - unfold set_custom_type_names. by replace (Z.to_nat count) with 0%nat by lia.
  - intros qt ctx. apply resolveTypeName_empty.
Qed.

(** X4: what a bulk-set means for resolution.  For a type with identity
    [usr], after [setAll entries]: if [usr] is no key of [entries] the type
    resolves structurally, whatever was registered before; otherwise it
    resolves to the name of the last entry filed under [usr]. *)
Theorem resolveTypeName_after_setAll (entries : list (string * string))
    (reg0 reg : Registry) (ctx : ASTContext) (qt : QualType) (usr : string) :
  setAll entries reg0 = Some reg →
  generateUSRForType ctx qt = Some usr →
  (usr ∉ entries.*1 →
   resolveTypeName getAsString qt ctx reg = normalizeTypeName getAsString qt) ∧
  (∀ before after name,
     entries = (before ++ (usr, name) :: after)%list → usr ∉ after.*1 →
     resolveTypeName getAsString qt ctx reg = name).
Proof.
  rewrite setAll_insertAll. intros [= <-] Husr.
  unfold resolveTypeName, getUSRForType. rewrite Husr. split.
  - intros Hk. by rewrite insertAll_lookup_absent, lookup_empty.
  - intros before after name -> Hk. by rewrite insertAll_lookup_last.
Qed.

(** X5: resolution never invents a name: the result is a name held by the
    registry, one of the eight fixed names, or the spelling of the type as
    given. *)
Theorem resolveTypeName_range (qt : QualType) (ctx : ASTContext) (reg : Registry) :
  (∃ key, reg !! key = Some (resolveTypeName getAsString qt ctx reg)) ∨
  resolveTypeName getAsString qt ctx reg
    ∈ ["i32"; "i16"; "i64"; "u8"; "f32"; "f64"; "str"; "anyptr"] ∨
  resolveTypeName getAsString qt ctx reg = getAsString qt.
Proof.
  unfold resolveTypeName.
  destruct (reg !! getUSRForType qt ctx) as [name|] eqn:Hreg; [left; eauto|].
  right. unfold normalizeTypeName.
  repeat case_match; first [by right | left; set_solver].
Qed.

End RegistryAndResolver.

(** ** Literals and the field loop *)

Section Literals.

Variable getAsString : QualType → string.
Variable ctx : ASTContext.
Variable reg : Registry.

Local Abbreviation value := (fieldValue getAsString ctx reg).

Lemma getSExtValue_bounds (v : APInt) :
  (- 2 ^ 63 ≤ getSExtValue v < 2 ^ 63)%Z.
Proof.
  unfold getSExtValue.
  set (w := (64 `min` Z.of_N (BitWidth v))%Z).
  assert (0 ≤ w ≤ 64)%Z as Hw by (unfold w; lia).
  destruct (decide (w = 0)%Z) as [->|Hw0].
  { simpl. rewrite Z.mod_1_r. simpl. lia. }
  assert (0 ≤ U v mod 2 ^ w < 2 ^ w)%Z as Hu by (apply Z.mod_pos_bound; lia).
  assert (2 ^ w = 2 * 2 ^ (w - 1))%Z as Hdouble.
  { rewrite <- Z.pow_succ_r by lia. f_equal. lia. }
  assert (2 ^ (w - 1) ≤ 2 ^ 63)%Z as Hhalf by (apply Z.pow_le_mono_r; lia).
  destruct (U v mod 2 ^ w <? 2 ^ (w - 1))%Z eqn:Hlt.
  - apply Z.ltb_lt in Hlt. lia.
  - apply Z.ltb_ge in Hlt. lia.
Qed.

(** X6: an integer literal is printed as the signed reading of its bits.
    For a literal of width [w] up to 64 bits holding the unsigned value [u]:
    below [2^(w-1)] the text is the decimal of [u]; from [2^(w-1)] on it is
    the decimal of [u - 2^w], a negative number (so [4294967295U] prints as
    [-1]). *)
Theorem integer_literal_signed_reading (r : SourceRange) (w : N) (u : Z) :
  (0 < w ≤ 64)%N → (0 ≤ u < 2 ^ Z.of_N w)%Z →
  exprToString getAsString (IntegerLiteral r {| BitWidth := w; U := u |}) ctx reg =
  Some (to_string (if (u <? 2 ^ (Z.of_N w - 1))%Z then u else (u - 2 ^ Z.of_N w)%Z)).
Proof.
  intros Hw Hu. simpl. unfold ret, getSExtValue. simpl.
  rewrite Z.min_r by lia. rewrite Z.mod_small by lia. reflexivity.
Qed.

(** X7: the text of every integer literal is a decimal numeral that reads
    back as the value [getSExtValue] computed, and that value fits a signed
    64-bit integer. *)
Theorem integer_literal_text_reads_back (r : SourceRange) (v : APInt) :
  ∃ text,
    exprToString getAsString (IntegerLiteral r v) ctx reg = Some text ∧
    Z.of_int <$> NilZero.int_of_string text = Some (getSExtValue v) ∧
    (- 2 ^ 63 ≤ getSExtValue v < 2 ^ 63)%Z.
Proof.
  eexists. split; [reflexivity|]. split; [|apply getSExtValue_bounds].
  unfold to_string. rewrite NilZero.isi.
  - simpl. by rewrite DecimalZ.of_to.
  - destruct (getSExtValue v); simpl; try discriminate.
    intros [= H]. by apply DecimalPos.Unsigned.to_uint_nonnil in H.
  - destruct (getSExtValue v); simpl; try discriminate.
    intros [= H]. by apply DecimalPos.Unsigned.to_uint_nonnil in H.
Qed.

Lemma append_cancel_r (s s' t : string) : s +:+ t = s' +:+ t → s = s'.
Proof.
  revert s'. induction s as [|c s IH]; intros [|c' s'] H; [done| | |].
  - apply (f_equal String.length) in H.
    rewrite !length_append in H. simpl in H. lia.
  - apply (f_equal String.length) in H.
    rewrite !length_append in H. simpl in H. lia.
  - rewrite !append_cons in H. injection H as -> H. f_equal. by apply IH.
Qed.

(** X8: a string literal is rendered as its bytes, copied unescaped between
    two double quotes and followed by [.ref()]; the text is eight characters
    longer than the content, and no other content gives the same text. *)
Theorem string_literal_text_exact (r : SourceRange) (s : string) :
  exprToString getAsString (StringLiteral r s) ctx reg
    = Some (dquote +:+ s +:+ dquote +:+ ".ref()") ∧
  String.length (dquote +:+ s +:+ dquote +:+ ".ref()") = (String.length s + 8)%nat ∧
  (∀ r' s', exprToString getAsString (StringLiteral r' s') ctx reg
            = exprToString getAsString (StringLiteral r s) ctx reg → s' = s).
Proof.
  split; [reflexivity|]. split.
  - rewrite !length_append. simpl. lia.
  - simpl. intros r' s' [= H].
    change ("" +:+ ?a) with a in H. by apply append_cancel_r in H.
Qed.

(** The loop faults when a field has no initializer or an initializer has
    no text. *)
Lemma fieldLoop_incomplete (inits : list Expr) :
  (∀ x, x ∈ inits → valueComplete (IgnoreImpCasts x) = false →
        exprToString getAsString (IgnoreImpCasts x) ctx reg = None) →
  ∀ fs i out,
    pairedAll (fun _ x => valueComplete (IgnoreImpCasts x)) false inits fs = false →
    fieldLoop value inits fs i out = None.
Proof.
  induction inits as [|x inits IH]; intros Hall [|f fs] i out Hinc;
    try discriminate; [done|].
  simpl in Hinc. cbn [fieldLoop]. rewrite fieldValue_exprToString.
  destruct (valueComplete (IgnoreImpCasts x)) eqn:Hx; simpl in Hinc.
  - destruct (exprToString getAsString (IgnoreImpCasts x) ctx reg); [|done].
    simpl. apply IH; [|done]. intros y Hy. apply Hall. by right.
  - rewrite (Hall x) by (done || by left). done.
Qed.

Lemma exprToString_incomplete (e : Expr) :
  valueComplete e = false → exprToString getAsString e ctx reg = None.
Proof.
  remember (exprSize e) as n eqn:Hn. revert e Hn.
  induction n as [n IH] using lt_wf_ind. intros e -> Hinc.
  destruct e as [r v|r v|r b|r qt init|r inits|r sub|r]; try discriminate.
  simpl in Hinc. destruct (getAsRecordDecl qt) as [rd|] eqn:Hrd.
  - destruct init as [| | | |r' inits| |]; simpl in Hinc; rewrite Hrd in Hinc;
      try discriminate.
    change (exprToString getAsString (CompoundLiteralExpr r qt (InitListExpr r' inits)) ctx reg)
      with (compoundLiteralToNamedInit getAsString qt (InitListExpr r' inits) ctx reg).
    rewrite (compoundLiteralToNamedInit_record _ _ _ _ _ _ _ Hrd).
    rewrite fieldLoop_incomplete; [done| |done].
    intros x Hx. apply (IH (exprSize (IgnoreImpCasts x))); [|done].
    pose proof (exprSize_IgnoreImpCasts x).
    pose proof (exprSize_elem x inits Hx). simpl. lia.
  - destruct init; simpl in Hinc; rewrite Hrd in Hinc; discriminate.
Qed.

(** X9: the serializer faults exactly on missing initializers: an
    expression has a text if and only if every record literal the walk
    reaches has an initializer for each of its declared fields. *)
Theorem exprToString_defined_iff (e : Expr) :
  is_Some (exprToString getAsString e ctx reg) ↔ valueComplete e = true.
Proof.
  split.
  - intros [s Hs]. destruct (valueComplete e) eqn:He; [done|].
    rewrite exprToString_incomplete in Hs by done. discriminate.
  - intros He. destruct (all_rendered getAsString ctx reg e He) as (s & Hs & _).
    by exists s.
Qed.

End Literals.

Section FieldLoopReads.

Variable getAsString : QualType → string.
Variable ctx : ASTContext.
Variable reg : Registry.

Lemma fieldLoop_take val rest fs i out :
  fieldLoop val rest fs i out = fieldLoop val (take (length fs) rest) fs i out.
Proof.
  revert fs i out. induction rest as [|x rest IH]; intros [|f fs] i out; try done.
  simpl. destruct (val x); simpl; [apply IH|done].
Qed.

Lemma fieldLoop_same_values val val' rest rest' fs i out :
  Forall2 (fun x y => val x = val' y) rest rest' →
  fieldLoop val rest fs i out = fieldLoop val' rest' fs i out.
Proof.
  intros H. revert fs i out.
  induction H as [|x y rest rest' Hxy _ IH]; intros [|f fs] i out; try done.
  simpl. rewrite Hxy. destruct (val' y); simpl; [apply IH|done].
Qed.

(** X10: the literal serializer reads one initializer per declared field
    and nothing else: initializers beyond the field count, and the source
    range of the list, have no effect on the result. *)
Theorem compoundLiteralToNamedInit_reads_one_per_field (qt : QualType)
    (rd : RecordDecl) (r r' : SourceRange) (inits : list Expr) :
  getAsRecordDecl qt = Some rd →
  compoundLiteralToNamedInit getAsString qt (InitListExpr r inits) ctx reg =
  compoundLiteralToNamedInit getAsString qt
    (InitListExpr r' (take (length (fields rd)) inits)) ctx reg.
Proof.
  intros Hrd.
  rewrite !(compoundLiteralToNamedInit_record _ _ _ _ _ _ _ Hrd).
  by rewrite fieldLoop_take.
Qed.

(** X11: implicit conversions around initializers are invisible: two
    initializer lists whose elements agree once their implicit casts are
    stripped are serialized alike.  (An explicit cast or a parenthesis is
    not stripped.) *)
Theorem compoundLiteralToNamedInit_ignores_implicit_casts (qt : QualType)
    (r r' : SourceRange) (inits inits' : list Expr) :
  Forall2 (fun x y => IgnoreImpCasts x = IgnoreImpCasts y) inits inits' →
  compoundLiteralToNamedInit getAsString qt (InitListExpr r inits) ctx reg =
  compoundLiteralToNamedInit getAsString qt (InitListExpr r' inits') ctx reg.
Proof.
  intros H. destruct (getAsRecordDecl qt) as [rd|] eqn:Hrd.
  - rewrite !(compoundLiteralToNamedInit_record _ _ _ _ _ _ _ Hrd).
    rewrite (fieldLoop_same_values _ (fieldValue getAsString ctx reg) inits inits');
      [done|].
    eapply Forall2_impl; [exact H|]. intros x y Hxy. unfold fieldValue.
    by rewrite Hxy.
  - simpl. by rewrite Hrd.
Qed.

End FieldLoopReads.

(** ** The entry point: path handling, arguments and the scan *)

Section PathsAndArguments.

Lemma get_last_inv (s : string) (c d : ascii) :
  String.get (String.length s) (String c s) = Some d →
  (s = "" ∧ d = c) ∨ ∃ middle, s = middle +:+ String d "".
Proof.
  revert c. induction s as [|c' s IH]; intros c H.
  - left. simpl in H. by simplify_eq.
  - right. cbn [String.length String.get] in H.
    destruct (IH c' H) as [[-> ->]|[middle ->]].
    + by exists "".
    + by exists (String c' middle).
Qed.

(** X12: the system-header test is exact: the entry point returns before
    parsing exactly for the paths that begin with [<] and end with [>].  A
    lone [<], or a path that only begins with [<], is handed to the
    parser. *)
Theorem isAngleInclude_iff (header_path : string) :
  isAngleInclude header_path = true ↔ angleBracketPath header_path.
Proof.
  split; [|apply isAngleInclude_angleBracketPath].
  unfold isAngleInclude, angleBracketPath.
  destruct header_path as [|c s]; [done|].
  change (String.get 0 (String c s)) with (Some c). cbn [String.length].
  replace (S (String.length s) - 1)%nat with (String.length s) by lia.
  destruct (Ascii.eqb_spec c "<") as [->|]; [|done]. rewrite andb_true_l.
  destruct (String.get (String.length s) (String "<" s)) as [d|] eqn:Hd; [|done].
  destruct (Ascii.eqb_spec d ">") as [->|]; [|done]. intros _.
  apply get_last_inv in Hd as [[_ [=]]|[middle ->]]. by exists middle.
Qed.

(** [find_last_of] finds the last separator: when it returns [j] the
    string splits at [j] into a prefix of length [j], one character of the
    set, and a rest free of such characters; it returns nothing exactly when
    the string holds no character of the set. *)
Lemma find_last_of_spec (s chars : string) :
  match find_last_of s chars with
  | Some j =>
      ∃ pre c post,
        s = pre +:+ String c post ∧ String.length pre = j ∧
        existsb (Ascii.eqb c) (list_ascii_of_string chars) = true ∧
        Forall (fun d => existsb (Ascii.eqb d) (list_ascii_of_string chars) = false)
          (list_ascii_of_string post)
  | None =>
      Forall (fun d => existsb (Ascii.eqb d) (list_ascii_of_string chars) = false)
        (list_ascii_of_string s)
  end.
Proof.
  unfold find_last_of.
  assert (∀ i found,
    (Forall (fun d => existsb (Ascii.eqb d) (list_ascii_of_string chars) = false)
       (list_ascii_of_string s) ∧
     find_last_of_from i s chars found = found) ∨
    (∃ pre c post,
       s = pre +:+ String c post ∧
       existsb (Ascii.eqb c) (list_ascii_of_string chars) = true ∧
       Forall (fun d => existsb (Ascii.eqb d) (list_ascii_of_string chars) = false)
         (list_ascii_of_string post) ∧
       find_last_of_from i s chars found = Some (i + String.length pre)%nat)) as H.
  { induction s as [|c s IH]; intros i found; [left; split; [constructor|done]|].
    cbn [find_last_of_from].
    destruct (IH (S i)
                (if existsb (Ascii.eqb c) (list_ascii_of_string chars)
                 then Some i else found))
      as [[Hnone ->]|(pre & c' & post & -> & Hc' & Hpost & ->)].
    - destruct (existsb (Ascii.eqb c) (list_ascii_of_string chars)) eqn:Hc.
      + right. exists "", c, s. repeat split; try done. simpl. f_equal. lia.
      + left. split; [|done]. simpl. by constructor.
    - right. exists (String c pre), c', post. repeat split; try done.
      simpl. f_equal. lia. }
  destruct (H 0%nat None) as [[Hnone ->]|(pre & c & post & -> & Hc & Hpost & ->)];
    [done|].
  exists pre, c, post. done.
Qed.

Lemma substring_prefix (pre t : string) :
  String.substring 0 (String.length pre) (pre +:+ t) = pre.
Proof.
  induction pre as [|c pre IH].
  - by destruct t.
  - rewrite append_cons. cbn [String.length String.substring]. by rewrite IH.
Qed.

Lemma driverArgs_loop (args0 clang_args : list string) (n : nat) :
  (n ≤ length clang_args)%nat →
  foldl (fun (acc : M (list string)) (i : nat) =>
           args ← acc; a ← clang_args !! i; ret (args ++ [a])%list)
        (ret args0) (seq 0 n)
  = Some (args0 ++ take n clang_args)%list.
Proof.
  induction n as [|n IH]; intros Hn.
  - simpl. by rewrite take_0, app_nil_r.
  - rewrite seq_S, foldl_app, IH by lia. simpl.
    destruct (lookup_lt_is_Some_2 clang_args n) as [a Ha]; [lia|].
    rewrite Ha. simpl. rewrite (take_S_r _ _ _ Ha). by rewrite app_assoc.
Qed.

Lemma driverArgs_loop_fault (clang_args : list string) (indices : list nat) :
  foldl (fun (acc : M (list string)) (i : nat) =>
           args ← acc; a ← clang_args !! i; ret (args ++ [a])%list)
        None indices = None.
Proof. induction indices as [|i indices IH]; [done|]. apply IH. Qed.

(** X13: the arguments handed to the parser.  With [num_args] in range
    they are, in this order: [-x c -std=c11]; for a path with a separator,
    [-I] followed by the path up to its last [/] or [\] (the file name after
    it holds no separator); then the first [num_args] caller arguments, which
    therefore come last. *)
Theorem driverArgs_layout (header_path : string) (clang_args : list string)
    (num_args : Z) :
  (num_args ≤ Z.of_nat (length clang_args))%Z →
  ∃ include : list string,
    driverArgs header_path clang_args num_args =
      Some (["-x"; "c"; "-std=c11"] ++ include ++ take (Z.to_nat num_args) clang_args)%list ∧
    ((include = [] ∧
      Forall (fun d => existsb (Ascii.eqb d) (list_ascii_of_string "/\") = false)
        (list_ascii_of_string header_path)) ∨
     (∃ dir c file,
        header_path = dir +:+ String c file ∧ include = ["-I" +:+ dir] ∧
        (c = "/"%char ∨ c = "\"%char) ∧
        Forall (fun d => existsb (Ascii.eqb d) (list_ascii_of_string "/\") = false)
          (list_ascii_of_string file))).
Proof.
  intros Hn. unfold driverArgs.
  pose proof (find_last_of_spec header_path "/\") as Hspec.
  destruct (find_last_of header_path "/\") as [j|].
  - destruct Hspec as (dir & c & file & -> & <- & Hc & Hfile).
    exists ["-I" +:+ dir]. split.
    + rewrite driverArgs_loop by lia. rewrite substring_prefix.
      by rewrite <- app_assoc.
    + right. exists dir, c, file. repeat split; try done.
      simpl in Hc. rewrite orb_false_r in Hc.
      apply orb_true_iff in Hc as [Hc|Hc]; apply Ascii.eqb_eq in Hc; auto.
  - exists []. split; [|by left].
    by rewrite driverArgs_loop by lia.
Qed.

(** X14: reading the caller's arguments past the end of the array is a
    fault: the argument list is defined exactly when [num_args] does not
    exceed the array. *)
Theorem driverArgs_defined_iff (header_path : string) (clang_args : list string)
    (num_args : Z) :
  is_Some (driverArgs header_path clang_args num_args) ↔
  (num_args ≤ Z.of_nat (length clang_args))%Z.
Proof.
  split; [|apply driverArgs_total].
  intros [args Hargs].
  destruct (decide (num_args ≤ Z.of_nat (length clang_args))%Z) as [|Hgt]; [done|].
  exfalso. unfold driverArgs in Hargs.
  replace (Z.to_nat num_args)
    with (length clang_args + S (Z.to_nat num_args - S (length clang_args)))%nat
    in Hargs by lia.
  rewrite seq_app, foldl_app, driverArgs_loop in Hargs by lia.
  simpl in Hargs. rewrite lookup_ge_None_2 in Hargs by lia. simpl in Hargs.
  by rewrite driverArgs_loop_fault in Hargs.
Qed.

End PathsAndArguments.

Section Scan.

Variable getAsString : QualType → string.
Variable buildAST : string → list string → string → option ASTUnit.

(** Declarations the scan passes over: anything but a sentinel, and a
    sentinel whose initializer is present and not a compound literal. *)
Local Abbreviation passedOver :=
  (Forall (fun d => isSentinel d = true → nonLiteralSentinel d = true)).

Lemma findDummyVar_passes_over pre ds define_name ctx reg :
  passedOver pre →
  findDummyVar getAsString (pre ++ ds) define_name ctx reg =
  findDummyVar getAsString ds define_name ctx reg.
Proof.
  induction 1 as [|d pre Hd _ IH]; [done|].
  destruct d as [name vinit|]; simpl in *; [|done].
  destruct (String.eqb name "__dummy_var"); [|done].
  specialize (Hd eq_refl). destruct vinit as [init|]; [|done]. simpl.
  destruct (IgnoreImpCasts init); simpl in *; done.
Qed.


(** The copy never holds a NUL, and is a prefix of the text. *)
Lemma c_str_prefix (s : string) :
  ∃ rest, s = c_str s +:+ rest ∧
          Forall (fun c => c ≠ "000"%char) (list_ascii_of_string (c_str s)).
Proof.
  induction s as [|c s (rest & Hrest & Hfree)]; [by exists ""|].
  simpl. destruct (Ascii.eqb_spec c "000") as [->|Hc].
  - eexists. split; [reflexivity|constructor].
  - exists rest. split.
    + rewrite append_cons. by rewrite <- Hrest.
    + simpl. by constructor.
Qed.

(** X15: the first sentinel whose initializer is a compound literal
    decides the result: the declarations before it are passed over, the
    declarations after it are never looked at, and the result is the C
    string copied from the resolved type name, the macro name, [=], the
    literal's text and [;] -- that is, this text up to its first NUL -- or a
    fault, if the literal's serialization faults. *)
Theorem findDummyVar_first_literal_decides (pre post : list Decl) (init : Expr)
    (r : SourceRange) (qt : QualType) (cinit : Expr) (define_name : string)
    (ctx : ASTContext) (reg : Registry) :
  passedOver pre →
  IgnoreImpCasts init = CompoundLiteralExpr r qt cinit →
  findDummyVar getAsString (pre ++ VarDecl "__dummy_var" (Some init) :: post)
    define_name ctx reg =
  (init_str ← compoundLiteralToNamedInit getAsString qt cinit ctx reg;
   ret (Some (c_str (resolveTypeName getAsString qt ctx reg +:+ " " +:+ define_name
                     +:+ " = " +:+ init_str +:+ ";")))).
Proof.
  intros Hpre Hinit. rewrite findDummyVar_passes_over by done.
  simpl. by rewrite Hinit.
Qed.

(** X16: the scan dereferences [getInit()] unchecked: a sentinel without
    initializer, reached before any compound-literal sentinel, is a fault
    and not an absent result. *)
Theorem findDummyVar_null_initializer_faults (pre post : list Decl)
    (define_name : string) (ctx : ASTContext) (reg : Registry) :
  passedOver pre →
  findDummyVar getAsString (pre ++ VarDecl "__dummy_var" None :: post)
    define_name ctx reg = Fault.
Proof. intros Hpre. by rewrite findDummyVar_passes_over. Qed.

(** After the system-header test, the arguments and the parse, the entry
    point is the scan of the unit's declarations. *)
Lemma macro_to_named_initializer_scan header_path define_name clang_args num_args
    reg args ast :
  isAngleInclude header_path = false →
  driverArgs header_path clang_args num_args = Some args →
  buildAST (syntheticCode header_path define_name) args "macro_eval.c" = Some ast →
  macro_to_named_initializer getAsString buildAST header_path define_name
    clang_args num_args reg =
  findDummyVar getAsString (decls ast) define_name (getASTContext ast) reg.
Proof.
  intros Hangle Hargs Hparse. unfold macro_to_named_initializer.
  rewrite Hangle, Hargs. simpl. by rewrite Hparse.
Qed.

(** X17: the entry point does not check the serializer's markers.  For a
    macro that expands to a compound literal of non-record type (an array
    literal, a scalar literal) it returns a declaration string that carries
    the marker, not an absent result: the C string copied from the resolved
    type name, the macro name and [= <not a record>;]. *)
Theorem macro_to_named_initializer_leaks_marker (header_path define_name : string)
    (clang_args args : list string) (num_args : Z) (reg : Registry) (ast : ASTUnit)
    (pre post : list Decl) (init : Expr) (r : SourceRange) (qt : QualType)
    (cinit : Expr) :
  isAngleInclude header_path = false →
  driverArgs header_path clang_args num_args = Some args →
  buildAST (syntheticCode header_path define_name) args "macro_eval.c" = Some ast →
  decls ast = (pre ++ VarDecl "__dummy_var" (Some init) :: post)%list →
  passedOver pre →
  IgnoreImpCasts init = CompoundLiteralExpr r qt cinit →
  getAsRecordDecl qt = None →
  macro_to_named_initializer getAsString buildAST header_path define_name
    clang_args num_args reg =
  Some (Some (c_str (resolveTypeName getAsString qt (getASTContext ast) reg +:+ " "
                     +:+ define_name +:+ " = <not a record>;"))).
Proof.
  intros Hangle Hargs Hparse Hdecls Hpre Hinit Hrd.
  rewrite (macro_to_named_initializer_scan _ _ _ _ _ _ _ Hangle Hargs Hparse), Hdecls.
  rewrite findDummyVar_passes_over by done. simpl. rewrite Hinit.
  destruct cinit; simpl; by rewrite Hrd.
Qed.


End Scan.

(** ** Instances of the further properties *)

Section FurtherInstances.

Import Examples.

Lemma set_custom_type_names_reads_prefix_witness :
  ∃ reg' : Registry,
    set_custom_type_names ["a"; "b"; "c"] ["A"; "B"] 2 regVec2 = Some reg' ∧
    dom reg' = {["a"; "b"]} ∧
    reg' !! "c:@S@Point" = None.
Proof.
  destruct (set_custom_type_names_reads_prefix ["a"; "b"; "c"] ["A"; "B"] 2 regVec2)
    as (reg' & Hset & Heq & Hdom & _); [simpl; lia|simpl; lia|].
  exists reg'. split; [exact Hset|]. split.
  - rewrite Hdom. simpl. set_solver.
  - rewrite Heq. reflexivity.
Defined.

Lemma set_custom_type_names_nonpositive_resets_witness :
  ∃ reg' : Registry,
    set_custom_type_names ["c:@S@Point"] ["Vec2"] 0 regVec2 = Some reg' ∧
    resolveTypeName spelling PointTy ctxPoint reg' = "Point".
Proof.
  destruct (set_custom_type_names_nonpositive_resets spelling
              ["c:@S@Point"] ["Vec2"] 0 regVec2) as (reg' & Hset & Hres); [lia|].
  exists reg'. split; [exact Hset|]. rewrite Hres. reflexivity.
Defined.

Lemma resolveTypeName_after_setAll_witness :
  ∃ reg : Registry,
    setAll [("c:@S@Point", "Vec2"); ("c:@S@Point", "Vec2f")] regVec2 = Some reg ∧
    resolveTypeName spelling PointTy ctxPoint reg = "Vec2f".
Proof.
  destruct (setAll [("c:@S@Point", "Vec2"); ("c:@S@Point", "Vec2f")] regVec2)
    as [reg|] eqn:Hset; [|discriminate].
  exists reg. split; [reflexivity|].
  apply (resolveTypeName_after_setAll spelling _ regVec2 reg ctxPoint PointTy
           "c:@S@Point" Hset eq_refl)
    with (before := [("c:@S@Point", "Vec2")]) (after := []);
    [reflexivity|apply not_elem_of_nil].
Defined.

Lemma integer_literal_signed_reading_witness :
  exprToString spelling (int32 (at_ 9 9) 4294967295) ctxBare ∅ = Some "-1".
Proof.
  apply (integer_literal_signed_reading spelling ctxBare ∅ (at_ 9 9) 32 4294967295);
    lia.
Defined.

(** The content [a], double quote, [b]: the inner quote is copied as it is. *)
Lemma string_literal_text_exact_witness :
  exprToString spelling (StringLiteral (at_ 1 5) ("a" +:+ dquote +:+ "b")) ctxBare ∅
  = Some (dquote +:+ "a" +:+ dquote +:+ "b" +:+ dquote +:+ ".ref()") ∧
  String.length (dquote +:+ "a" +:+ dquote +:+ "b" +:+ dquote +:+ ".ref()") = 11%nat.
Proof.
  destruct (string_literal_text_exact spelling ctxBare ∅ (at_ 1 5)
              ("a" +:+ dquote +:+ "b")) as (Htext & Hlen & _).
  split; [exact Htext|exact Hlen].
Defined.

Lemma compoundLiteralToNamedInit_reads_one_per_field_witness :
  compoundLiteralToNamedInit spelling PointTy
    (InitListExpr (at_ 8 15)
       [int32 (at_ 9 9) 1; int32 (at_ 11 11) 2; OtherExpr (at_ 13 14)]) ctxPoint ∅
  = compoundLiteralToNamedInit spelling PointTy pointInit ctxPoint ∅.
Proof.
  apply (compoundLiteralToNamedInit_reads_one_per_field spelling ctxPoint ∅
           PointTy PointDecl). reflexivity.
Defined.

Lemma compoundLiteralToNamedInit_ignores_implicit_casts_witness :
  compoundLiteralToNamedInit spelling PointTy
    (InitListExpr (at_ 8 12)
       [ImplicitCastExpr (at_ 9 9) (int32 (at_ 9 9) 1); int32 (at_ 11 11) 2])
    ctxPoint ∅
  = compoundLiteralToNamedInit spelling PointTy pointInit ctxPoint ∅.
Proof.
  apply (compoundLiteralToNamedInit_ignores_implicit_casts spelling ctxPoint ∅).
  repeat constructor.
Defined.

Lemma driverArgs_layout_witness :
  ∃ include : list string,
    driverArgs "include/geo\header.h" ["-std=c2x"; "-DX=1"; "unused"] 2 =
      Some (["-x"; "c"; "-std=c11"] ++ include ++ ["-std=c2x"; "-DX=1"])%list ∧
    include = ["-Iinclude/geo"].
Proof.
  destruct (driverArgs_layout "include/geo\header.h" ["-std=c2x"; "-DX=1"; "unused"] 2)
    as (include & Hargs & Hinc); [simpl; lia|].
  exists include. split; [exact Hargs|].
  assert (driverArgs "include/geo\header.h" ["-std=c2x"; "-DX=1"; "unused"] 2
          = Some (["-x"; "c"; "-std=c11"] ++ ["-Iinclude/geo"]
                  ++ ["-std=c2x"; "-DX=1"])%list) as Hrun by reflexivity.
  rewrite Hrun in Hargs. apply (inj Some) in Hargs.
  apply app_inv_head, app_inv_tail in Hargs. by symmetry.
Defined.

Lemma findDummyVar_first_literal_decides_witness :
  findDummyVar spelling (declsPoint ++ declsClash) "P" ctxPoint ∅
  = Some (Some "Point P = Point{x=1, y=2};").
Proof.
  etrans;
    [apply (findDummyVar_first_literal_decides spelling [OtherDecl] declsClash pointLit
              (at_ 1 12) PointTy pointInit "P" ctxPoint ∅)|reflexivity];
    [|reflexivity].
  repeat constructor; done.
Defined.

Lemma findDummyVar_null_initializer_faults_witness :
  findDummyVar spelling declsClash "P" ctxPoint ∅ = Fault.
Proof.
  apply (findDummyVar_null_initializer_faults spelling [OtherDecl]
           [VarDecl "__dummy_var" (Some pointLit)] "P" ctxPoint ∅).
  repeat constructor; done.
Defined.

Lemma macro_to_named_initializer_leaks_marker_witness :
  macro_to_named_initializer spelling (driverOf declsArray) "header.h" "PAIR" [] 0 ∅
  = Some (Some "int[2] PAIR = <not a record>;").
Proof.
  etrans;
    [apply (macro_to_named_initializer_leaks_marker spelling (driverOf declsArray)
              "header.h" "PAIR" [] ["-x"; "c"; "-std=c11"] 0 ∅
              {| getASTContext := ctxPoint; decls := declsArray |}
              [VarDecl "counter" None] [] arrayLit (at_ 1 14) arrayTy
              (InitListExpr (at_ 10 14) [int32 (at_ 11 11) 1; int32 (at_ 13 13) 2]))
    |reflexivity]; try reflexivity.
  repeat constructor; done.
Defined.


(** A string with an embedded NUL cuts the returned C string short. *)
Example macro_to_named_initializer_cut_at_nul :
  macro_to_named_initializer spelling (driverOf declsTag) "header.h" "T" [] 0 ∅
  = Some (Some ("Tag T = Tag{label=" +:+ dquote +:+ "a")).
Proof. reflexivity. Qed.

End FurtherInstances.
